(** * Similarity engine of the assignment platform: src/lib/plagiarism.ts

    A shallow embedding of the similarity-detection code and the properties
    it satisfies.

    Modelling conventions
    - A JavaScript string is the list of its UTF-16 code units ([N]);
      [length], [indexOf], [split], [trim] and the regular expressions of the
      source all work on code units.
    - [String.prototype.toLowerCase] is the Unicode case table of the
      JavaScript runtime; it is not part of the repository and is taken as a
      parameter ([toLowerCase]) of everything that normalises text.
    - A JavaScript number is an exact rational, or one of the IEEE specials
      that a division of two sizes can produce (see [number]); indices are
      integers ([Z]).
    - Objects that the code mutates in place (the matched segments) live in
      an explicit object store ([Heap]); arrays hold references. *)

From Stdlib Require Import String Ascii.
From Stdlib Require Import List ZArith NArith QArith Qround Lia Bool Permutation Sorted.
Import ListNotations.
Close Scope Q_scope.
Open Scope Z_scope.

(** ** JavaScript strings as code-unit lists *)

Module Js.

Definition char16 := N.
Bind Scope N_scope with char16.
Definition jsstring := list char16.

(** Literals: the code units of an ASCII literal. *)
Fixpoint js (s : string) : jsstring :=
  match s with
  | EmptyString => []
  | String a r => N_of_ascii a :: js r
  end.

Definition len (s : jsstring) : Z := Z.of_nat (length s).

Fixpoint eqb (a b : jsstring) : bool :=
  match a, b with
  | [], [] => true
  | x :: a', y :: b' => N.eqb x y && eqb a' b'
  | _, _ => false
  end.

(** [\s] of a regular expression and the characters [trim] strips:
    WhiteSpace and LineTerminator of ECMAScript. *)
Definition between (lo hi c : char16) : bool := (lo <=? c)%N && (c <=? hi)%N.

Definition isWhiteSpace (c : char16) : bool :=
  between 9 13 c || (c =? 32)%N || (c =? 160)%N || (c =? 5760)%N
  || between 8192 8202 c || (c =? 8232)%N || (c =? 8233)%N
  || (c =? 8239)%N || (c =? 8287)%N || (c =? 12288)%N || (c =? 65279)%N.

Definition isUpper (c : char16) : bool := between 65 90 c.
Definition isLower (c : char16) : bool := between 97 122 c.
Definition isDigit (c : char16) : bool := between 48 57 c.

(** [\w] of a regular expression without the [u] and [i] flags:
    [A-Za-z0-9_]. *)
Definition isWordChar (c : char16) : bool :=
  isUpper c || isLower c || isDigit c || (c =? 95)%N.

Definition space : char16 := 32%N.

(** [s.split(re)] where [re] is [[...]+] over a character class [sep]: the
    pieces between the maximal runs of separator characters.  [inRun] tells
    that the previous character was a separator, [cur] is the piece being
    read.  A separator at either end gives an empty piece there, and the
    empty string gives one empty piece. *)
Fixpoint splitAux (sep : char16 -> bool) (inRun : bool) (cur s : jsstring)
  : list jsstring :=
  match s with
  | [] => [cur]
  | c :: s' =>
      if sep c then
        if inRun then splitAux sep true [] s'
        else cur :: splitAux sep true [] s'
      else splitAux sep false (cur ++ [c]) s'
  end.

Definition split (sep : char16 -> bool) (s : jsstring) : list jsstring :=
  splitAux sep false [] s.

Fixpoint dropWhile (p : char16 -> bool) (s : jsstring) : jsstring :=
  match s with
  | [] => []
  | c :: s' => if p c then dropWhile p s' else s
  end.

Definition trimStart (s : jsstring) : jsstring := dropWhile isWhiteSpace s.
Definition trimEnd (s : jsstring) : jsstring := rev (dropWhile isWhiteSpace (rev s)).
Definition trim (s : jsstring) : jsstring := trimEnd (trimStart s).

(** [s.replace(/\s+/g, ' ')]: every maximal run of white space becomes one
    space. *)
Fixpoint collapseAux (inRun : bool) (s : jsstring) : jsstring :=
  match s with
  | [] => []
  | c :: s' =>
      if isWhiteSpace c then
        if inRun then collapseAux true s' else space :: collapseAux true s'
      else c :: collapseAux false s'
  end.

Definition collapseWhiteSpace (s : jsstring) : jsstring := collapseAux false s.

(** [s.replace(/[^\w\s]/g, '')]. *)
Definition stripPunctuation (s : jsstring) : jsstring :=
  filter (fun c => isWordChar c || isWhiteSpace c) s.

Fixpoint startsWith (s p : jsstring) {struct p} : bool :=
  match p, s with
  | [], _ => true
  | _ :: _, [] => false
  | x :: p', y :: s' => N.eqb x y && startsWith s' p'
  end.

(** [s.indexOf(search)]: the least position at which [search] occurs, or
    [-1]. *)
Fixpoint indexOfFrom (k : Z) (s search : jsstring) {struct s} : Z :=
  if startsWith s search then k
  else match s with
       | [] => -1
       | _ :: s' => indexOfFrom (k + 1) s' search
       end.

Definition indexOf (s search : jsstring) : Z := indexOfFrom 0 s search.

(** [s.substring(a, b)] for [0 <= a <= b]. *)
Definition substring (s : jsstring) (a b : Z) : jsstring :=
  firstn (Z.to_nat (b - a)) (skipn (Z.to_nat a) s).

(** *** [Set] of strings: insertion ordered, without duplicates *)

Fixpoint has (s : list jsstring) (x : jsstring) : bool :=
  match s with
  | [] => false
  | y :: s' => eqb y x || has s' x
  end.

Definition add (s : list jsstring) (x : jsstring) : list jsstring :=
  if has s x then s else s ++ [x].

Definition newSet (l : list jsstring) : list jsstring := fold_left add l [].

Definition size (s : list jsstring) : nat := length s.

(** *** Numbers *)

Inductive number : Type :=
| Fin (q : Q)
| PosInf
| NegInf
| NaN.

(** [a / b] for an integer [a] and a size or length [b] (so [0 <= b]). *)
Definition div (a b : Z) : number :=
  if b =? 0 then
    if a =? 0 then NaN else if 0 <? a then PosInf else NegInf
  else Fin (a # Z.to_pos b).

(** [x * k] for a positive finite [k]. *)
Definition scale (x : number) (k : Q) : number :=
  match x with
  | Fin q => Fin (q * k)%Q
  | other => other
  end.

(** [x >= y]. *)
Definition geb (x y : number) : bool :=
  match x, y with
  | NaN, _ | _, NaN => false
  | PosInf, _ => true
  | _, NegInf => true
  | Fin a, Fin b => Qle_bool b a
  | Fin _, PosInf => false
  | NegInf, _ => false
  end.

(** [x < y]. *)
Definition ltb (x y : number) : bool :=
  match x, y with
  | NaN, _ | _, NaN => false
  | Fin a, Fin b => negb (Qle_bool b a)
  | Fin _, PosInf => true
  | NegInf, Fin _ => true
  | NegInf, PosInf => true
  | _, _ => false
  end.

(** Equality of numbers as values. *)
Definition numEq (x y : number) : Prop :=
  match x, y with
  | Fin a, Fin b => (a == b)%Q
  | PosInf, PosInf => True
  | NegInf, NegInf => True
  | _, _ => False
  end.

(** [Math.round]: the nearest integer, halves upward. *)
Definition round (x : number) : number :=
  match x with
  | Fin q => Fin (inject_Z (Qfloor (q + (1 # 2))%Q))
  | other => other
  end.

End Js.

Import Js.

(** ** The engine *)

Module Plagiarism.

Record MatchedSegment : Type := mkSegment {
  text : jsstring;
  startIndex : Z;
  endIndex : Z;
  matchedSubmissionId : jsstring
}.

Section Engine.

(** [String.prototype.toLowerCase] of the runtime. *)
Variable toLowerCase : jsstring -> jsstring.

(** [text.toLowerCase().replace(/[^\w\s]/g, '').replace(/\s+/g, ' ').trim()]. *)
Definition normalizeText (t : jsstring) : jsstring :=
  trim (collapseWhiteSpace (stripPunctuation (toLowerCase t))).

Definition isSentenceEnd (c : char16) : bool :=
  (c =? 46)%N || (c =? 33)%N || (c =? 63)%N.

(** [text.split(/[.!?]+/).map(s => s.trim()).filter(s => s.length > 20)]. *)
Definition splitIntoSentences (t : jsstring) : list jsstring :=
  filter (fun s => len s >? 20) (map trim (split isSentenceEnd t)).

(** [(intersection.size / union.size) * 100] over the sets of the words
    that [split(/\s+/)] gives. *)
Definition calculateSimilarity (text1 text2 : jsstring) : number :=
  let words1 := split isWhiteSpace text1 in
  let words2 := split isWhiteSpace text2 in
  let set1 := newSet words1 in
  let set2 := newSet words2 in
  let intersection := newSet (filter (fun x => has set2 x) set1) in
  let union := newSet (set1 ++ set2) in
  scale (div (Z.of_nat (size intersection)) (Z.of_nat (size union))) 100.

(** The body of the inner loop: what one pair of sentences pushes onto
    [matches]. *)
Definition matchPair (originalText comparedSubmissionId : jsstring)
    (threshold : number) (sentence normalizedSentence comparedSentence : jsstring)
  : list MatchedSegment :=
  let normalizedCompared := normalizeText comparedSentence in
  let similarity := calculateSimilarity normalizedSentence normalizedCompared in
  if geb similarity threshold then
    let startIndex := indexOf originalText sentence in
    if negb (startIndex =? -1) then
      [ {| text := sentence;
           startIndex := startIndex;
           endIndex := startIndex + len sentence;
           matchedSubmissionId := comparedSubmissionId |} ]
    else []
  else [].

Definition findMatchingSegments (originalText comparedText comparedSubmissionId : jsstring)
    (threshold : number) : list MatchedSegment :=
  let originalSentences := splitIntoSentences originalText in
  let comparedSentences := splitIntoSentences comparedText in
  flat_map (fun sentence =>
    let normalizedSentence := normalizeText sentence in
    flat_map (matchPair originalText comparedSubmissionId threshold
                sentence normalizedSentence)
             comparedSentences)
    originalSentences.

(** The default value of the [threshold] parameter. *)
Definition defaultThreshold : number := Fin 70.

End Engine.

(** *** The object store

    [mergeOverlappingSegments] writes to the segment objects it is given, and
    the same objects are reachable from the reports that [checkPlagiarism]
    returns; an array of segments is a list of references into the store. *)

Definition ref := nat.
Definition Heap := ref -> MatchedSegment.

Definition store (h : Heap) (r : ref) (v : MatchedSegment) : Heap :=
  fun r' => if Nat.eqb r' r then v else h r'.

Definition setEndIndex (v : MatchedSegment) (e : Z) : MatchedSegment :=
  {| text := text v; startIndex := startIndex v; endIndex := e;
     matchedSubmissionId := matchedSubmissionId v |}.

Definition setText (v : MatchedSegment) (t : jsstring) : MatchedSegment :=
  {| text := t; startIndex := startIndex v; endIndex := endIndex v;
     matchedSubmissionId := matchedSubmissionId v |}.

(** The values an array of references holds. *)
Definition deref (h : Heap) (l : list ref) : list MatchedSegment := map h l.

(** [Array.prototype.sort] is stable; [lt a b] is [compare(a, b) < 0]. *)
Section Sort.
Variable A : Type.
Variable lt : A -> A -> bool.

Fixpoint insertBy (x : A) (l : list A) : list A :=
  match l with
  | [] => [x]
  | y :: l' => if lt y x then y :: insertBy x l' else x :: l
  end.

Fixpoint sortBy (l : list A) : list A :=
  match l with
  | [] => []
  | x :: l' => insertBy x (sortBy l')
  end.
End Sort.

Arguments insertBy {A} lt x l.
Arguments sortBy {A} lt l.

(** The comparator [(a, b) => a.startIndex - b.startIndex]. *)
Definition startsBefore (h : Heap) (a b : ref) : bool :=
  startIndex (h a) - startIndex (h b) <? 0.

(** One iteration of the loop of [mergeOverlappingSegments]: [last] is
    [merged[merged.length - 1]] ([merged] is never empty there), and the two
    assignments write to that object, one after the other. *)
Definition mergeStep (st : Heap * list ref) (current : ref) : Heap * list ref :=
  let (h, merged) := st in
  let last := List.last merged current in
  if startIndex (h current) <=? endIndex (h last) then
    let h1 := store h last
                (setEndIndex (h last) (Z.max (endIndex (h last)) (endIndex (h current)))) in
    let h2 := store h1 last
                (setText (h1 last) (text (h1 last) ++ [space] ++ text (h1 current))) in
    (h2, merged)
  else (h, merged ++ [current]).

(** The sorted copy is empty exactly when [segments] is, which is the early
    [return []]; otherwise [merged] starts as [[sorted[0]]]. *)
Definition mergeOverlappingSegments (segments : list ref) (h : Heap)
  : list ref * Heap :=
  match sortBy (startsBefore h) segments with
  | [] => ([], h)
  | first :: rest =>
      let (h', merged) := fold_left mergeStep rest (h, [first]) in
      (merged, h')
  end.

(** A store that holds the given objects at the references [0, 1, ...]. *)
Definition heapOf (segments : list MatchedSegment) : Heap :=
  fun r => nth r segments (mkSegment [] 0 0 []).

(** The merger on an array of distinct objects, as values. *)
Definition mergeValues (segments : list MatchedSegment) : list MatchedSegment :=
  let (merged, h') :=
    mergeOverlappingSegments (seq 0 (length segments)) (heapOf segments) in
  deref h' merged.

(** *** The stores and the orchestrator *)

Inductive Status : Type := draft | submitted | graded.

(** A row of [submissions]; [content] is a nullable column. *)
Record Submission : Type := mkSubmission {
  sub_id : jsstring;
  sub_assignment_id : jsstring;
  sub_student_id : jsstring;
  sub_content : option jsstring;
  sub_status : Status
}.

(** A row of [plagiarism_reports], as inserted: the segments are serialised
    when the row is written. *)
Record ReportRow : Type := mkReportRow {
  row_submission_id : jsstring;
  row_compared_submission_id : jsstring;
  row_similarity_score : number;
  row_matched_content : list MatchedSegment
}.

(** An element of the [reports] array; [matched_content] is the [matches]
    array itself. *)
Record Report : Type := mkReport {
  compared_submission_id : jsstring;
  similarity_score : number;
  matched_content : list ref
}.

Inductive CheckResult : Type :=
| CheckError (error : jsstring)
| NothingToCompare (overallSimilarity : number) (reports : list Report)
    (message : jsstring)
| Checked (overallSimilarity : number) (reports : list Report)
    (matchedSegments : list ref).

(** What a run does, in order: the two queries, each call of
    [findMatchingSegments], each insert. *)
Inductive Event : Type :=
| SelectSubmission (submissionId : jsstring)
| SelectOthers (assignmentId submissionId : jsstring)
| Compared (comparedSubmissionId : jsstring)
| Inserted (row : ReportRow).

Record World : Type := mkWorld {
  submissions : list Submission;
  plagiarism_reports : list ReportRow;
  heap : Heap;
  nextRef : ref;
  events : list Event
}.

Definition M (A : Type) : Type := World -> A * World.

Definition ret {A : Type} (a : A) : M A := fun w => (a, w).

Definition bind {A B : Type} (m : M A) (k : A -> M B) : M B :=
  fun w => let (a, w') := m w in k a w'.

Declare Scope m_scope.
Delimit Scope m_scope with m.
Notation "x <- m ;; k" := (bind m (fun x => k))
  (at level 61, m at next level, right associativity) : m_scope.
Notation "m ;; k" := (bind m (fun _ => k))
  (at level 61, right associativity) : m_scope.

Definition emit (e : Event) : M unit :=
  fun w => (tt, mkWorld (submissions w) (plagiarism_reports w) (heap w)
                        (nextRef w) (events w ++ [e])).

(** [from('submissions').select('content').eq('id', id).single()]: the row
    when exactly one matches, [null] otherwise. *)
Definition selectSubmission (submissionId : jsstring) : M (option Submission) :=
  fun w =>
    let (_, w') := emit (SelectSubmission submissionId) w in
    (match filter (fun s => eqb (sub_id s) submissionId) (submissions w) with
     | [s] => Some s
     | _ => None
     end, w').

Definition isSubmitted (st : Status) : bool :=
  match st with submitted => true | _ => false end.

(** [from('submissions').select('id, content').eq('assignment_id', a)
      .neq('id', id).eq('status', 'submitted')]. *)
Definition selectOthers (assignmentId submissionId : jsstring) : M (list Submission) :=
  fun w =>
    let (_, w') := emit (SelectOthers assignmentId submissionId) w in
    (filter (fun s => eqb (sub_assignment_id s) assignmentId
                      && negb (eqb (sub_id s) submissionId)
                      && isSubmitted (sub_status s))
            (submissions w), w').

(** [from('plagiarism_reports').insert(row)]. *)
Definition insertReport (row : ReportRow) : M unit :=
  fun w =>
    let (_, w') := emit (Inserted row) w in
    (tt, mkWorld (submissions w') (plagiarism_reports w' ++ [row]) (heap w')
                 (nextRef w') (events w')).

(** The object literals that [findMatchingSegments] pushes are new objects. *)
Definition allocate (vs : list MatchedSegment) : M (list ref) :=
  fun w =>
    let n := nextRef w in
    (seq n (length vs),
     mkWorld (submissions w) (plagiarism_reports w)
             (fun r => if (n <=? r)%nat && (r <? n + length vs)%nat
                       then nth (r - n) vs (heap w r) else heap w r)
             (n + length vs)%nat (events w)).

Definition readHeap : M Heap := fun w => (heap w, w).

Definition runMerge (segments : list ref) : M (list ref) :=
  fun w =>
    let (merged, h') := mergeOverlappingSegments segments (heap w) in
    (merged, mkWorld (submissions w) (plagiarism_reports w) h' (nextRef w) (events w)).

(** [segments.reduce((sum, m) => sum + (m.endIndex - m.startIndex), 0)]. *)
Definition totalChars (h : Heap) (segments : list ref) : Z :=
  fold_left (fun sum m => sum + (endIndex (h m) - startIndex (h m))) segments 0.

(** [Math.round(x * 100) / 100]. *)
Definition round2 (x : number) : number :=
  scale (round (scale x 100)) (1 # 100).

(** A string in a condition: [null] and the empty string are falsy. *)
Definition truthy (c : option jsstring) : option jsstring :=
  match c with
  | Some (_ :: _) => c
  | _ => None
  end.

Definition errorMessage : jsstring := js "Submission not found or empty".
Definition noOthersMessage : jsstring := js "No other submissions to compare against".

Section Orchestrator.

Variable toLowerCase : jsstring -> jsstring.

Local Open Scope m_scope.

(** The loop over [otherSubmissions]; [acc] is [allMatchedSegments] and
    [reports]. *)
Fixpoint compareAll (submissionId currentContent : jsstring)
    (otherSubmissions : list Submission) (acc : list ref * list Report)
  : M (list ref * list Report) :=
  match otherSubmissions with
  | [] => ret acc
  | otherSubmission :: rest =>
      match truthy (sub_content otherSubmission) with
      | None => compareAll submissionId currentContent rest acc
      | Some otherContent =>
          emit (Compared (sub_id otherSubmission)) ;;
          matches <- allocate (findMatchingSegments toLowerCase currentContent
                                 otherContent (sub_id otherSubmission)
                                 defaultThreshold) ;;
          if (0 <? length matches)%nat then
            h <- readHeap ;;
            let totalMatchedChars := totalChars h matches in
            let similarity :=
              scale (div totalMatchedChars (len currentContent)) 100 in
            insertReport (mkReportRow submissionId (sub_id otherSubmission)
                            (round2 similarity) (deref h matches)) ;;
            compareAll submissionId currentContent rest
              (fst acc ++ matches,
               snd acc ++ [mkReport (sub_id otherSubmission) (round2 similarity) matches])
          else compareAll submissionId currentContent rest acc
      end
  end.

Definition checkPlagiarism (submissionId assignmentId : jsstring) : M CheckResult :=
  currentSubmission <- selectSubmission submissionId ;;
  match match currentSubmission with
        | Some s => truthy (sub_content s)
        | None => None
        end with
  | None => ret (CheckError errorMessage)
  | Some currentContent =>
      otherSubmissions <- selectOthers assignmentId submissionId ;;
      match otherSubmissions with
      | [] => ret (NothingToCompare (Fin 0) [] noOthersMessage)
      | _ :: _ =>
          acc <- compareAll submissionId currentContent otherSubmissions ([], []) ;;
          mergedSegments <- runMerge (fst acc) ;;
          h <- readHeap ;;
          let totalMatchedChars := totalChars h mergedSegments in
          let overallSimilarity :=
            scale (div totalMatchedChars (len currentContent)) 100 in
          ret (Checked (round2 overallSimilarity)
                 (sortBy (fun a b => ltb (similarity_score b) (similarity_score a))
                         (snd acc))
                 mergedSegments)
      end
  end.

End Orchestrator.

End Plagiarism.

Import Plagiarism.

(** ** The views that use the engine *)

(** *** The plagiarism report view: [highlightMatches] *)

Module ReportView.

(** An element of [matched_content] as the view reads it back: an object
    whose [startIndex] and [endIndex] are integers when they are there. *)
Record MatchJson : Type := mkMatchJson {
  json_startIndex : option Z;
  json_endIndex : option Z
}.

(** A stored report as the view reads it; [json_matched_content] is [None]
    when the column is null or holds something else than an array. *)
Record ReportJson : Type := mkReportJson {
  json_similarity_score : number;
  json_matched_content : option (list MatchJson)
}.

(** The two [forEach] loops that fill [segments]. *)
Definition collectSegments (reportData : list ReportJson) : list (Z * Z) :=
  flat_map (fun report =>
              match json_matched_content report with
              | Some matches =>
                  flat_map (fun m =>
                              match json_startIndex m, json_endIndex m with
                              | Some s, Some e => [(s, e)]
                              | _, _ => []
                              end)
                           matches
              | None => []
              end)
           reportData.

Definition clamp (x n : Z) : Z := Z.min (Z.max x 0) n.

(** [s.substring(a, b)] and [s.substring(a)] for integers: both ends are
    brought into [0 .. s.length], and swapped when they are the wrong way
    round. *)
Definition substringFrom (s : jsstring) (a : Z) (b : option Z) : jsstring :=
  let n := len s in
  let a' := clamp a n in
  let b' := match b with Some b => clamp b n | None => n end in
  substring s (Z.min a' b') (Z.max a' b').

Definition markOpen : jsstring :=
  js "<mark class=" ++ [34%N] ++ js "bg-yellow-200 px-1" ++ [34%N] ++ js ">".

Definition markClose : jsstring := js "</mark>".

(** The body of [segments.forEach]: the state is [highlighted] and
    [lastIndex]. *)
Definition highlightStep (content : jsstring) (st : jsstring * Z) (segment : Z * Z)
  : jsstring * Z :=
  let (highlighted, lastIndex) := st in
  let highlighted1 :=
    highlighted ++ substringFrom content lastIndex (Some (fst segment)) in
  let highlighted2 :=
    highlighted1
    ++ (markOpen ++ substringFrom content (fst segment) (Some (snd segment)) ++ markClose) in
  (highlighted2, snd segment).

(** [highlightMatches(reportData)]; the result is what it passes to
    [setHighlightedContent]. *)
Definition highlightMatches (submissionContent : jsstring) (reportData : list ReportJson)
  : jsstring :=
  let content := submissionContent in
  let segments := sortBy (fun a b => fst a - fst b <? 0) (collectSegments reportData) in
  let (highlighted, lastIndex) := fold_left (highlightStep content) segments ([], 0) in
  highlighted ++ substringFrom content lastIndex None.

End ReportView.

Import ReportView.

(** *** The student dashboard: [getAssignmentStats] *)

Module Dashboard.

(** A row of [assignments]: the columns that the dashboard reads. *)
Record Assignment : Type := mkAssignment {
  asg_id : jsstring;
  asg_title : jsstring;
  asg_due_date : jsstring
}.

(** [submissions.find(s => s.assignment_id === assignmentId)]. *)
Definition getSubmissionForAssignment (submissions : list Submission)
    (assignmentId : jsstring) : option Submission :=
  find (fun s => eqb (sub_assignment_id s) assignmentId) submissions.

Record AssignmentStats : Type := mkStats {
  stat_total : nat;
  stat_completed : nat;
  stat_pending : nat;
  stat_graded : nat
}.

Definition isGraded (st : Status) : bool :=
  match st with graded => true | _ => false end.

Definition isDraft (st : Status) : bool :=
  match st with draft => true | _ => false end.

Definition getAssignmentStats (assignments : list Assignment)
    (submissions : list Submission) : AssignmentStats :=
  let total := length assignments in
  let completed :=
    length (filter (fun a =>
                      let sub := getSubmissionForAssignment submissions (asg_id a) in
                      match sub with
                      | Some s => isSubmitted (sub_status s) || isGraded (sub_status s)
                      | None => false
                      end) assignments) in
  let pending :=
    length (filter (fun a =>
                      let sub := getSubmissionForAssignment submissions (asg_id a) in
                      match sub with
                      | Some s => isDraft (sub_status s)
                      | None => true
                      end) assignments) in
  let graded :=
    length (filter (fun a =>
                      let sub := getSubmissionForAssignment submissions (asg_id a) in
                      match sub with
                      | Some s => isGraded (sub_status s)
                      | None => false
                      end) assignments) in
  mkStats total completed pending graded.

End Dashboard.

Import Dashboard.

(** ** Vocabulary of the specification *)

(** [pieces] are the pieces of [t] between its maximal runs of separator
    characters: [t] is [p0 ++ r1 ++ p1 ++ ... ++ rn ++ pn] where no [pi]
    holds a separator, every [ri] is a non-empty run of separators, and no
    run is followed by a separator. *)
Inductive SplitOn (sep : char16 -> bool) : jsstring -> list jsstring -> Prop :=
| SplitOn_last (p : jsstring) :
    Forall (fun c => sep c = false) p ->
    SplitOn sep p [p]
| SplitOn_run (p r rest : jsstring) (pieces : list jsstring) :
    Forall (fun c => sep c = false) p ->
    r <> [] ->
    Forall (fun c => sep c = true) r ->
    match rest with [] => True | c :: _ => sep c = false end ->
    SplitOn sep rest pieces ->
    SplitOn sep (p ++ r ++ rest) (p :: pieces).

(** [t] is [s] without the white space at its two ends. *)
Definition Trimmed (s t : jsstring) : Prop :=
  exists a b,
    s = a ++ t ++ b /\
    Forall (fun c => isWhiteSpace c = true) a /\
    Forall (fun c => isWhiteSpace c = true) b /\
    (forall c r, t = c :: r -> isWhiteSpace c = false) /\
    (forall c r, t = r ++ [c] -> isWhiteSpace c = false).

(** The segmenter as the specification words it: pieces shorter than 20
    characters are discarded. *)
Definition segmentBySpec (t : jsstring) : list jsstring :=
  filter (fun s => negb (len s <? 20)) (map trim (split isSentenceEnd t)).

(** [p] occurs in [s] at position [k]. *)
Definition occursAt (s p : jsstring) (k : Z) : Prop :=
  exists a b, s = a ++ p ++ b /\ len a = k.

(** A character of a normalised text: a word character that is not an
    upper-case letter, or a space. *)
Definition isLowerWordChar (c : char16) : bool :=
  isLower c || isDigit c || (c =? 95)%N.

Definition isNormalChar (c : char16) : bool :=
  isLowerWordChar c || (c =? space)%N.

(** No two adjacent spaces. *)
Fixpoint singleSpaced (s : jsstring) : bool :=
  match s with
  | c :: ((d :: _) as r) => negb ((c =? space)%N && (d =? space)%N) && singleSpaced r
  | _ => true
  end.

(** The two facts about [toLowerCase] that normalisation relies on: its
    result holds no letter of [A-Z], and it leaves a text of lower-case word
    characters and spaces as it is. *)
Record LowerCaseTable (toLowerCase : jsstring -> jsstring) : Prop := {
  lower_no_upper : forall s, Forall (fun c => isUpper c = false) (toLowerCase s);
  lower_fixed : forall s, Forall (fun c => isNormalChar c = true) s -> toLowerCase s = s
}.

(** [toLowerCase] on texts whose letters are all ASCII. *)
Definition asciiLower (s : jsstring) : jsstring :=
  map (fun c => if isUpper c then (c + 32)%N else c) s.

(** The positions a segment spans: [[startIndex, endIndex)]. *)
Definition covers (m : MatchedSegment) (x : Z) : Prop :=
  startIndex m <= x < endIndex m.

Definition covered (l : list MatchedSegment) (x : Z) : Prop :=
  exists m, In m l /\ covers m x.

Definition disjointSpans (a b : MatchedSegment) : Prop :=
  forall x, ~ (covers a x /\ covers b x).

Definition byStartIndex (a b : MatchedSegment) : Prop :=
  startIndex a <= startIndex b.

(** Which input segments each merged span was made of: the run of
    [mergeOverlappingSegments] replayed, with the segment that opens a span
    and those that the loop then folds into it recorded next to it. *)
Definition appendToLast (groups : list (list ref)) (r : ref) : list (list ref) :=
  match rev groups with
  | [] => [[r]]
  | g :: before => rev before ++ [g ++ [r]]
  end.

Definition groupStep (st : Heap * list ref * list (list ref)) (current : ref)
  : Heap * list ref * list (list ref) :=
  let (hm, groups) := st in
  let hm' := mergeStep hm current in
  (hm', if (length (snd hm') =? length (snd hm))%nat
        then appendToLast groups current
        else groups ++ [[current]]).

Definition coalesced (segments : list ref) (h : Heap) : list (list ref) :=
  match sortBy (startsBefore h) segments with
  | [] => []
  | first :: rest => snd (fold_left groupStep rest (h, [first], [[first]]))
  end.

(** *** The invariant of the merging loop; [h0] is the store before the
    call *)

Definition startOf (h0 : Heap) (r : ref) : Z := startIndex (h0 r).

(** What links a merged span [m] to the segments [g] folded into it: [m]
    is the first of them, none of them starts before it, and [m] now spans
    exactly what they spanned before the call. *)
Definition GroupOk (h0 h : Heap) (m : ref) (g : list ref) : Prop :=
  (exists tl, g = m :: tl) /\
  Forall (fun r => startOf h0 m <= startOf h0 r) g /\
  (forall x, covers (h m) x <-> exists r, In r g /\ covers (h0 r) x).

Record Inv (h0 : Heap) (processed : list ref) (h : Heap) (merged : list ref)
    (groups : list (list ref)) : Prop := {
  inv_frame : forall r, startIndex (h r) = startOf h0 r /\
                        matchedSubmissionId (h r) = matchedSubmissionId (h0 r);
  inv_grow : forall r, endIndex (h0 r) <= endIndex (h r);
  inv_touched : forall r, endIndex (h r) = endIndex (h0 r) \/ In r merged;
  inv_groups : Forall2 (GroupOk h0 h) merged groups;
  inv_concat : concat groups = processed;
  inv_gap : ForallOrdPairs (fun a b => endIndex (h a) < startOf h0 b) merged;
  inv_sorted : ForallOrdPairs (fun a b => startOf h0 a <= startOf h0 b) merged;
  inv_nonempty : merged <> []
}.

(** *** Sample data *)

(** Two segments that overlap, neither spanning both. *)
Definition twoOverlapping : Heap :=
  heapOf [mkSegment (js "four five six seven eight") 19 44 (js "p1");
          mkSegment (js "one two three four five") 5 28 (js "p1")].

Definition threeSegments : Heap :=
  heapOf [mkSegment (js "cd") 2 4 (js "p1");
          mkSegment (js "abcdefgh") 0 8 (js "p2");
          mkSegment (js "g") 6 7 (js "p3")].

Definition emptyHeap : Heap := fun _ => mkSegment [] 0 0 [].

Definition classroom : World :=
  mkWorld
    [ mkSubmission (js "s1") (js "a1") (js "u1")
        (Some (js "The quick brown fox jumps over the lazy dog today in the park. And then something else happened entirely elsewhere."))
        submitted;
      mkSubmission (js "s2") (js "a1") (js "u2")
        (Some (js "the quick brown fox jumps over the lazy dog today in the park!"))
        submitted;
      mkSubmission (js "s3") (js "a1") (js "u3") (Some []) submitted ]
    [] emptyHeap 0%nat [].

(** *** Vocabulary for the further properties *)

(** [w] is one of the words that the scorer reads in [t]. *)
Definition isWordOf (w t : jsstring) : Prop := In w (split isWhiteSpace t).

(** The two sets whose sizes the scorer divides. *)
Definition commonWords (text1 text2 : jsstring) : list jsstring :=
  newSet (filter (fun x => has (newSet (split isWhiteSpace text2)) x)
                 (newSet (split isWhiteSpace text1))).

Definition allWords (text1 text2 : jsstring) : list jsstring :=
  newSet (newSet (split isWhiteSpace text1) ++ newSet (split isWhiteSpace text2)).

(** The store after [findMatchingSegments] has been called for the peer
    [peerId] and the objects of its segments [vs] have been created. *)
Definition afterCompare (w : World) (peerId : jsstring) (vs : list MatchedSegment) : World :=
  mkWorld (submissions w) (plagiarism_reports w)
          (fun r => if (nextRef w <=? r)%nat && (r <? nextRef w + length vs)%nat
                    then nth (r - nextRef w) vs (heap w r) else heap w r)
          (nextRef w + length vs)%nat (events w ++ [Compared peerId]).

(** The store after the insert of [row]. *)
Definition afterInsert (w : World) (row : ReportRow) : World :=
  mkWorld (submissions w) (plagiarism_reports w ++ [row]) (heap w) (nextRef w)
          (events w ++ [Inserted row]).

(** The score of a pair, or of the whole check: the characters of the
    segments as a percentage of the checked text, to two decimals. *)
Definition percentOf (h : Heap) (segments : list ref) (currentContent : jsstring) : number :=
  round2 (scale (div (totalChars h segments) (len currentContent)) 100).

(** The rows of the inserts of a trace, in order. *)
Fixpoint insertedRows (trace : list Event) : list ReportRow :=
  match trace with
  | [] => []
  | Inserted row :: rest => row :: insertedRows rest
  | _ :: rest => insertedRows rest
  end.

(** [s] is a submission that a check of [submissionId] for [assignmentId]
    compares with: another submission of the assignment, submitted, with
    content. *)
Definition isPeer (assignmentId submissionId : jsstring) (s : Submission) : Prop :=
  sub_assignment_id s = assignmentId /\
  sub_id s <> submissionId /\
  sub_status s = submitted /\
  exists content, sub_content s = Some content /\ content <> [].

(** What a check of [submissionId] for [assignmentId] may do on the store
    [w]. *)
Definition eventAllowed (w : World) (assignmentId submissionId : jsstring) (e : Event) : Prop :=
  match e with
  | SelectSubmission i => i = submissionId
  | SelectOthers a i => a = assignmentId /\ i = submissionId
  | Compared p =>
      exists s, In s (submissions w) /\ sub_id s = p /\ isPeer assignmentId submissionId s
  | Inserted row =>
      row_submission_id row = submissionId /\
      row_matched_content row <> [] /\
      exists s, In s (submissions w) /\ sub_id s = row_compared_submission_id row /\
                isPeer assignmentId submissionId s
  end.

Definition reportKey (r : Report) : jsstring * number :=
  (compared_submission_id r, similarity_score r).

Definition rowKey (row : ReportRow) : jsstring * number :=
  (row_compared_submission_id row, row_similarity_score row).

(** A segment lies in the text: [0 <= startIndex < endIndex <= len t]. *)
Definition inText (t : jsstring) (m : MatchedSegment) : Prop :=
  0 <= startIndex m /\ startIndex m < endIndex m /\ endIndex m <= len t.

(** The store after a query: only the trace grows. *)
Definition afterEvent (w : World) (e : Event) : World :=
  mkWorld (submissions w) (plagiarism_reports w) (heap w) (nextRef w) (events w ++ [e]).

(** The submission that the first query of a check finds, when its content
    is not empty; and the rows that the second query returns. *)
Definition checkedContent (w : World) (submissionId : jsstring) : option jsstring :=
  match filter (fun s => eqb (sub_id s) submissionId) (submissions w) with
  | [s] => truthy (sub_content s)
  | _ => None
  end.

Definition othersOf (w : World) (assignmentId submissionId : jsstring) : list Submission :=
  filter (fun s => eqb (sub_assignment_id s) assignmentId
                   && negb (eqb (sub_id s) submissionId)
                   && isSubmitted (sub_status s))
         (submissions w).

(** *** More sample data *)

(** One submitted text and a draft of another student. *)
Definition quietClassroom : World :=
  mkWorld
    [ mkSubmission (js "s1") (js "a1") (js "u1")
        (Some (js "The quick brown fox jumps over the lazy dog today in the park."))
        submitted;
      mkSubmission (js "s2") (js "a1") (js "u2")
        (Some (js "the quick brown fox jumps over the lazy dog today in the park!"))
        draft ]
    [] emptyHeap 0%nat [].

(** A peer that says twice the one sentence of the checked text. *)
Definition echoClassroom : World :=
  mkWorld
    [ mkSubmission (js "s1") (js "a1") (js "u1")
        (Some (js "We went to the market today.")) submitted;
      mkSubmission (js "s2") (js "a1") (js "u2")
        (Some (js "We went to the market today! We went to the market today?"))
        submitted ]
    [] emptyHeap 0%nat [].

(** Two sentences of the checked text that occur first, and overlapping,
    inside a longer sentence before them. *)
Definition overlapClassroom : World :=
  mkWorld
    [ mkSubmission (js "s1") (js "a1") (js "u1")
        (Some (js "zero one two three four five six seven eight nine. one two three four five. four five six seven eight."))
        submitted;
      mkSubmission (js "s2") (js "a1") (js "u2")
        (Some (js "one two three four five! four five six seven eight!"))
        submitted ]
    [] emptyHeap 0%nat [].

(** The spans of the objects of an array. *)
Definition spansOf (h : Heap) (l : list ref) : list (Z * Z) :=
  map (fun x => (startIndex (h x), endIndex (h x))) l.

(** Segments laid out from left to right inside [lo .. L], none
    overlapping the next. *)
Fixpoint laidOut (lo L : Z) (segments : list (Z * Z)) : Prop :=
  match segments with
  | [] => lo <= L
  | segment :: rest =>
      lo <= fst segment /\ fst segment <= snd segment /\ laidOut (snd segment) L rest
  end.

(** A text cut into pieces, each a stretch left as it is followed by a
    stretch to mark, and a rest: with the marks, and without. *)
Definition withMarks (pieces : list (jsstring * jsstring)) (rest : jsstring) : jsstring :=
  flat_map (fun p => fst p ++ markOpen ++ snd p ++ markClose) pieces ++ rest.

Definition withoutMarks (pieces : list (jsstring * jsstring)) (rest : jsstring) : jsstring :=
  flat_map (fun p => fst p ++ snd p) pieces ++ rest.

(** Stored reports as the view reads them: one segment without an
    [endIndex], one report without segments. *)
Definition storedReports : list ReportJson :=
  [ mkReportJson (Fin 40)
      (Some [mkMatchJson (Some 12) (Some 21); mkMatchJson (Some 3) None]);
    mkReportJson (Fin 20) None;
    mkReportJson (Fin 10) (Some [mkMatchJson (Some 0) (Some 5)]) ].

(** ** Facts about the string primitives *)

Lemma eqb_eq (a b : jsstring) : eqb a b = true <-> a = b.
Proof.
  revert b; induction a as [|x a IH]; intros [|y b]; simpl; split;
    try congruence; try reflexivity.
  - rewrite andb_true_iff, N.eqb_eq, IH. intros [-> ->]; reflexivity.
  - intros H; injection H as -> ->. rewrite N.eqb_refl. simpl. apply IH; reflexivity.
Qed.

Lemma has_In (s : list jsstring) (x : jsstring) : has s x = true <-> In x s.
Proof.
  induction s as [|y s IH]; simpl.
  - split; [discriminate | tauto].
  - rewrite orb_true_iff, eqb_eq, IH. tauto.
Qed.

Lemma has_false (s : list jsstring) (x : jsstring) : has s x = false <-> ~ In x s.
Proof.
  rewrite <- has_In. destruct (has s x); split; congruence.
Qed.

(** *** Sets *)

Lemma fold_add_In (l acc : list jsstring) (x : jsstring) :
  In x (fold_left add l acc) <-> In x acc \/ In x l.
Proof.
  revert acc; induction l as [|y l IH]; intros acc; simpl.
  - tauto.
  - rewrite IH. unfold add. destruct (has acc y) eqn:E.
    + apply has_In in E. split; [tauto|]. intros [H|[<-|H]]; auto.
    + rewrite in_app_iff; simpl. tauto.
Qed.

Lemma fold_add_NoDup (l acc : list jsstring) :
  NoDup acc -> NoDup (fold_left add l acc).
Proof.
  revert acc; induction l as [|y l IH]; intros acc H; simpl; [exact H|].
  apply IH. unfold add. destruct (has acc y) eqn:E; [exact H|].
  apply has_false in E.
  apply NoDup_rev in H. rewrite <- (rev_involutive (acc ++ [y])).
  apply NoDup_rev. rewrite rev_app_distr; simpl. constructor; [|exact H].
  rewrite <- in_rev; exact E.
Qed.

Lemma fold_add_absorb (l acc : list jsstring) :
  (forall x, In x l -> In x acc) -> fold_left add l acc = acc.
Proof.
  revert acc; induction l as [|y l IH]; intros acc H; simpl; [reflexivity|].
  unfold add. assert (E : has acc y = true) by (apply has_In, H; left; reflexivity).
  rewrite E. apply IH. intros x Hx; apply H; right; exact Hx.
Qed.

Lemma fold_add_fresh (l acc : list jsstring) :
  NoDup (acc ++ l) -> fold_left add l acc = acc ++ l.
Proof.
  revert acc; induction l as [|y l IH]; intros acc H; simpl.
  - rewrite app_nil_r; reflexivity.
  - unfold add. assert (E : has acc y = false).
    { apply has_false. intros Hin. apply NoDup_remove_2 in H.
      apply H. apply in_or_app; left; exact Hin. }
    rewrite E. rewrite IH; rewrite <- app_assoc; simpl; [reflexivity | exact H].
Qed.

Lemma newSet_NoDup (l : list jsstring) : NoDup (newSet l).
Proof. apply fold_add_NoDup; constructor. Qed.

Lemma newSet_In (l : list jsstring) (x : jsstring) : In x (newSet l) <-> In x l.
Proof. unfold newSet; rewrite fold_add_In; simpl; tauto. Qed.

Lemma newSet_of_set (s : list jsstring) : NoDup s -> newSet s = s.
Proof. intros H. unfold newSet. apply (fold_add_fresh s []); exact H. Qed.

Lemma newSet_app_self (s : list jsstring) : NoDup s -> newSet (s ++ s) = s.
Proof.
  intros H. unfold newSet. rewrite fold_left_app.
  change (fold_left add s []) with (newSet s). rewrite (newSet_of_set _ H).
  apply fold_add_absorb; auto.
Qed.

Lemma filter_all {A : Type} (f : A -> bool) (l : list A) :
  (forall x, In x l -> f x = true) -> filter f l = l.
Proof.
  induction l as [|x l IH]; simpl; intros H; [reflexivity|].
  rewrite (H x (or_introl eq_refl)). f_equal. apply IH; auto.
Qed.

Lemma splitAux_nonempty (sep : char16 -> bool) (b : bool) (cur s : jsstring) :
  splitAux sep b cur s <> [].
Proof.
  revert b cur; induction s as [|c s IH]; intros b cur; simpl; [discriminate|].
  destruct (sep c); [destruct b|]; try apply IH; discriminate.
Qed.

Lemma newSet_nonempty (l : list jsstring) : l <> [] -> newSet l <> [].
Proof.
  destruct l as [|x l]; [congruence|]. intros _ E.
  assert (H : In x (newSet (x :: l))) by (apply newSet_In; left; reflexivity).
  rewrite E in H; exact H.
Qed.

Lemma size_words_pos (t : jsstring) :
  (0 < size (newSet (split isWhiteSpace t)))%nat.
Proof.
  unfold size.
  destruct (newSet (split isWhiteSpace t)) eqn:E; [|simpl; lia].
  exfalso. revert E. apply newSet_nonempty, splitAux_nonempty.
Qed.

Lemma newSet_incl_length (l1 l2 : list jsstring) :
  incl l1 l2 -> (length (newSet l1) <= length (newSet l2))%nat.
Proof.
  intros H. apply NoDup_incl_length; [apply newSet_NoDup|].
  intros x Hx. apply newSet_In, H, newSet_In, Hx.
Qed.

(** The scorer always divides by a positive size, and the quotient is a
    fraction of it. *)
Lemma calculateSimilarity_defined (text1 text2 : jsstring) :
  exists i u : nat,
    (0 < u)%nat /\ (i <= u)%nat /\
    calculateSimilarity text1 text2
    = Fin ((Z.of_nat i # Z.to_pos (Z.of_nat u)) * 100)%Q.
Proof.
  unfold calculateSimilarity.
  set (set1 := newSet (split isWhiteSpace text1)).
  set (set2 := newSet (split isWhiteSpace text2)).
  set (i := size (newSet (filter (fun x => has set2 x) set1))).
  set (u := size (newSet (set1 ++ set2))).
  assert (Hu : (0 < u)%nat).
  { pose proof (size_words_pos text1) as H1. fold set1 in H1.
    assert (size (newSet set1) <= u)%nat.
    { apply newSet_incl_length. intros x Hx; apply in_or_app; left; exact Hx. }
    rewrite newSet_of_set in H by apply newSet_NoDup. lia. }
  exists i, u. split; [exact Hu|]. split.
  - apply newSet_incl_length. intros x Hx. apply filter_In in Hx.
    apply in_or_app; left; tauto.
  - unfold div. destruct (Z.eqb_spec (Z.of_nat u) 0) as [E|E]; [lia|].
    reflexivity.
Qed.

Lemma percent_of_whole (n : nat) :
  (0 < n)%nat -> ((Z.of_nat n # Z.to_pos (Z.of_nat n)) * 100 == 100)%Q.
Proof.
  intros H. destruct n as [|m]; [lia|].
  unfold Qeq, Qmult; simpl. lia.
Qed.

Lemma percent_range (i u : nat) :
  (0 < u)%nat -> (i <= u)%nat ->
  (0 <= (Z.of_nat i # Z.to_pos (Z.of_nat u)) * 100 <= 100)%Q.
Proof.
  intros Hu Hi. destruct u as [|m]; [lia|].
  assert (Hz : Z.of_nat i <= Z.pos (Pos.of_succ_nat m)) by lia.
  unfold Qle, Qmult; simpl. lia.
Qed.

(** C1, as the specification states it, fails: the scorer does not give 0
    on two empty strings. *)
Lemma calculateSimilarity_empty_not_zero :
  ~ numEq (calculateSimilarity (js "") (js "")) (Fin 0).
Proof. vm_compute. discriminate. Qed.

(** C1 (amended): on two empty strings the scorer returns 100; and on all
    inputs it returns a finite percentage between 0 and 100, the divisor (the
    size of the union) being positive because splitting always yields at
    least one token, so no division by zero can occur. *)
Theorem calculateSimilarity_empty_strings :
  calculateSimilarity (js "") (js "") = Fin 100 /\
  forall text1 text2 : jsstring,
    exists q : Q, calculateSimilarity text1 text2 = Fin q /\ (0 <= q <= 100)%Q.
Proof.
  split; [reflexivity|].
  intros text1 text2.
  destruct (calculateSimilarity_defined text1 text2) as (i & u & Hu & Hi & E).
  eexists; split; [exact E|]. apply percent_range; assumption.
Qed.

(** C8: a normalised text scores 100 against itself, whatever the text, also
    when its normalisation is empty. *)
Theorem similarity_normalized_self (toLowerCase : jsstring -> jsstring) (a : jsstring) :
  numEq (calculateSimilarity (normalizeText toLowerCase a) (normalizeText toLowerCase a))
        (Fin 100).
Proof.
  generalize (normalizeText toLowerCase a). intros t.
  unfold calculateSimilarity.
  set (set1 := newSet (split isWhiteSpace t)).
  assert (Hnd : NoDup set1) by apply newSet_NoDup.
  rewrite (filter_all (fun x => has set1 x) set1)
    by (intros x Hx; apply has_In; exact Hx).
  rewrite (newSet_of_set _ Hnd), (newSet_app_self _ Hnd).
  pose proof (size_words_pos t) as Hpos. fold set1 in Hpos.
  unfold div. destruct (Z.eqb_spec (Z.of_nat (size set1)) 0) as [E|E]; [lia|].
  simpl. apply percent_of_whole; exact Hpos.
Qed.

Example similarity_normalized_self_empty :
  calculateSimilarity (normalizeText (fun s => s) (js " ?! ")) (normalizeText (fun s => s) (js " ?! "))
  = Fin 100.
Proof. reflexivity. Qed.

(** *** [split] *)

Lemma splitAux_spec (sep : char16 -> bool) (s : jsstring) :
  (forall cur, Forall (fun c => sep c = false) cur ->
     SplitOn sep (cur ++ s) (splitAux sep false cur s)) /\
  (exists run rest,
     s = run ++ rest /\ Forall (fun c => sep c = true) run /\
     match rest with [] => True | c :: _ => sep c = false end /\
     SplitOn sep rest (splitAux sep true [] s)).
Proof.
  induction s as [|c s [IH1 IH2]].
  - split.
    + intros cur H. rewrite app_nil_r. simpl. constructor; exact H.
    + exists [], []. simpl. repeat split; auto. constructor; constructor.
  - destruct IH2 as (run & rest & -> & Hrun & Hrest & Hsplit).
    destruct (sep c) eqn:E.
    + split.
      * intros cur H. simpl. rewrite E.
        change (cur ++ c :: run ++ rest) with (cur ++ (c :: run) ++ rest).
        apply SplitOn_run;
          [exact H | discriminate | constructor; assumption | exact Hrest | exact Hsplit].
      * exists (c :: run), rest. simpl. rewrite E. repeat split; auto.
    + split.
      * intros cur H. simpl. rewrite E.
        replace (cur ++ c :: run ++ rest) with ((cur ++ [c]) ++ run ++ rest)
          by (rewrite <- app_assoc; reflexivity).
        apply IH1. apply Forall_app; split; [exact H|]. constructor; auto.
      * exists [], (c :: run ++ rest). simpl. rewrite E. repeat split; auto.
        apply (IH1 [c]). constructor; auto.
Qed.

Lemma split_SplitOn (sep : char16 -> bool) (s : jsstring) :
  SplitOn sep s (split sep s).
Proof. apply (proj1 (splitAux_spec sep s) []). constructor. Qed.

Lemma splitAux_piece (sep : char16 -> bool) (p cur s : jsstring) :
  Forall (fun c => sep c = false) p ->
  splitAux sep false cur (p ++ s) = splitAux sep false (cur ++ p) s.
Proof.
  revert cur; induction p as [|c p IH]; intros cur H; simpl.
  - rewrite app_nil_r; reflexivity.
  - inversion H as [|? ? Hc Hp]; subst. rewrite Hc.
    rewrite IH by exact Hp. rewrite <- app_assoc. reflexivity.
Qed.

Lemma splitAux_run (sep : char16 -> bool) (r s : jsstring) :
  Forall (fun c => sep c = true) r ->
  splitAux sep true [] (r ++ s) = splitAux sep true [] s.
Proof.
  induction r as [|c r IH]; intros H; simpl; [reflexivity|].
  inversion H as [|? ? Hc Hr]; subst. rewrite Hc. apply IH; exact Hr.
Qed.

Lemma splitAux_after_run (sep : char16 -> bool) (s : jsstring) :
  match s with [] => True | c :: _ => sep c = false end ->
  splitAux sep true [] s = splitAux sep false [] s.
Proof. destruct s as [|c s]; simpl; [reflexivity|]. intros ->. reflexivity. Qed.

(** The pieces are determined by the text. *)
Lemma SplitOn_unique (sep : char16 -> bool) (s : jsstring) (pieces : list jsstring) :
  SplitOn sep s pieces -> pieces = split sep s.
Proof.
  unfold split. induction 1 as [p Hp | p r rest pieces Hp Hne Hr Hrest Hs IH].
  - rewrite <- (app_nil_r p) at 2. rewrite splitAux_piece by exact Hp. reflexivity.
  - rewrite splitAux_piece by exact Hp. simpl.
    destruct r as [|c r]; [congruence|].
    inversion Hr as [|? ? Hc Hr']; subst. simpl. rewrite Hc.
    rewrite splitAux_run by exact Hr'. rewrite splitAux_after_run by exact Hrest.
    reflexivity.
Qed.

Lemma SplitOn_infix (sep : char16 -> bool) (s : jsstring) (pieces : list jsstring) :
  SplitOn sep s pieces ->
  forall p, In p pieces -> exists a b, s = a ++ p ++ b.
Proof.
  induction 1 as [p Hp | p r rest pieces Hp Hne Hr Hrest Hs IH]; intros q Hq.
  - destruct Hq as [<-|[]]. exists [], []. rewrite app_nil_r; reflexivity.
  - destruct Hq as [<-|Hq].
    + exists [], (r ++ rest). reflexivity.
    + destruct (IH q Hq) as (a & b & ->).
      exists (p ++ r ++ a), b. rewrite <- !app_assoc. reflexivity.
Qed.

(** *** [trim] *)

Lemma dropWhile_spec (p : char16 -> bool) (s : jsstring) :
  exists a, s = a ++ dropWhile p s /\ Forall (fun c => p c = true) a /\
            (forall c r, dropWhile p s = c :: r -> p c = false).
Proof.
  induction s as [|c s (a & E & Ha & Hd)]; simpl.
  - exists []. repeat split; auto. discriminate.
  - destruct (p c) eqn:Pc.
    + exists (c :: a). split; [simpl; f_equal; exact E|].
      split; [constructor; auto | exact Hd].
    + exists []. repeat split; auto. intros c' r H; injection H as <- <-; exact Pc.
Qed.

Lemma trim_spec (s : jsstring) : Trimmed s (trim s).
Proof.
  unfold trim, trimEnd, trimStart.
  destruct (dropWhile_spec isWhiteSpace s) as (a & Ea & Ha & Hhead).
  set (m := dropWhile isWhiteSpace s) in *.
  destruct (dropWhile_spec isWhiteSpace (rev m)) as (b & Eb & Hb & Hlast).
  set (t := dropWhile isWhiteSpace (rev m)) in *.
  assert (Em : m = rev t ++ rev b).
  { rewrite <- rev_app_distr, <- Eb, rev_involutive. reflexivity. }
  exists a, (rev b). split; [|split; [|split; [|split]]].
  - rewrite <- Em. exact Ea.
  - exact Ha.
  - apply Forall_rev; exact Hb.
  - intros c r E. destruct t as [|x t'] eqn:Et.
    + discriminate.
    + apply (Hhead c (r ++ rev b)). rewrite Em, E. reflexivity.
  - intros c r E. apply (Hlast c (rev r)).
    rewrite <- (rev_involutive t). rewrite E, rev_app_distr. reflexivity.
Qed.

Lemma trim_infix (s : jsstring) : exists a b, s = a ++ trim s ++ b.
Proof.
  destruct (trim_spec s) as (a & b & E & _). exists a, b; exact E.
Qed.

(** *** [indexOf] *)

Lemma len_app (a b : jsstring) : len (a ++ b) = len a + len b.
Proof. unfold len. rewrite length_app. lia. Qed.

Lemma len_nonneg (a : jsstring) : 0 <= len a.
Proof. unfold len; lia. Qed.

Lemma startsWith_prefix (s p : jsstring) :
  startsWith s p = true <-> exists r, s = p ++ r.
Proof.
  revert s; induction p as [|x p IH]; intros s; simpl.
  - split; [intros _; exists s; reflexivity | reflexivity].
  - destruct s as [|y s].
    + split; [discriminate | intros (r & E); discriminate].
    + rewrite andb_true_iff, N.eqb_eq, IH. split.
      * intros (-> & r & ->). exists r; reflexivity.
      * intros (r & E). injection E as -> ->. split; [reflexivity | exists r; reflexivity].
Qed.

Lemma indexOfFrom_found (k : Z) (s p : jsstring) :
  (exists a b, s = a ++ p ++ b) ->
  exists a b, s = a ++ p ++ b /\ indexOfFrom k s p = k + len a /\
              forall a' b', s = a' ++ p ++ b' -> len a <= len a'.
Proof.
  revert k; induction s as [|c s IH]; intros k (a0 & b0 & E0).
  - destruct a0; [|discriminate]. destruct p; [|discriminate].
    exists [], []. simpl. repeat split; [unfold len; simpl; lia | intros; apply len_nonneg].
  - simpl. destruct (startsWith (c :: s) p) eqn:Sw.
    + apply startsWith_prefix in Sw. destruct Sw as (r & E).
      exists [], r. repeat split; [exact E | unfold len; simpl; lia | intros; apply len_nonneg].
    + destruct a0 as [|x a0].
      { exfalso. assert (startsWith (c :: s) p = true)
          by (apply startsWith_prefix; exists b0; exact E0). congruence. }
      simpl in E0. injection E0 as <- E0.
      destruct (IH (k + 1) (ex_intro _ a0 (ex_intro _ b0 E0))) as (a & b & E & Ei & Hmin).
      exists (c :: a), b. split; [simpl; f_equal; exact E|]. split.
      * rewrite Ei. unfold len; simpl length. lia.
      * intros a' b' E'. destruct a' as [|y a'].
        { exfalso. assert (startsWith (c :: s) p = true)
            by (apply startsWith_prefix; exists b'; exact E'). congruence. }
        simpl in E'. injection E' as _ E'. specialize (Hmin a' b' E').
        unfold len in *; simpl length; lia.
Qed.

(** [indexOf] finds the first occurrence whenever there is one. *)
Lemma indexOf_found (s p : jsstring) :
  (exists a b, s = a ++ p ++ b) ->
  occursAt s p (indexOf s p) /\
  forall k, occursAt s p k -> indexOf s p <= k.
Proof.
  intros H. destruct (indexOfFrom_found 0 s p H) as (a & b & E & Ei & Hmin).
  unfold indexOf. rewrite Ei. split.
  - exists a, b. split; [exact E | lia].
  - intros k (a' & b' & E' & <-). specialize (Hmin a' b' E'). lia.
Qed.

Lemma occursAt_bounds (s p : jsstring) (k : Z) :
  occursAt s p k -> 0 <= k /\ k + len p <= len s.
Proof.
  intros (a & b & -> & <-). rewrite !len_app.
  pose proof (len_nonneg a). pose proof (len_nonneg b). lia.
Qed.

Lemma occursAt_substring (s p : jsstring) (k : Z) :
  occursAt s p k <-> 0 <= k /\ k + len p <= len s /\ substring s k (k + len p) = p.
Proof.
  split.
  - intros H. destruct (occursAt_bounds _ _ _ H) as [H0 H1].
    destruct H as (a & b & -> & <-). repeat split; auto.
    unfold substring, len.
    replace (Z.of_nat (length a) + Z.of_nat (length p) - Z.of_nat (length a))
      with (Z.of_nat (length p)) by lia.
    rewrite !Nat2Z.id. rewrite skipn_app, skipn_all, Nat.sub_diag. simpl.
    rewrite firstn_app, firstn_all, Nat.sub_diag. simpl. apply app_nil_r.
  - intros (H0 & H1 & E). unfold substring in E.
    exists (firstn (Z.to_nat k) s), (skipn (Z.to_nat (k + len p)) s). split.
    + rewrite <- E at 1.
      replace (Z.to_nat (k + len p)) with (Z.to_nat (k + len p - k) + Z.to_nat k)%nat
        by (pose proof (len_nonneg p); lia).
      rewrite <- skipn_skipn. rewrite firstn_skipn. rewrite firstn_skipn. reflexivity.
    + unfold len in *. rewrite length_firstn. lia.
Qed.

(** ** The sentence segmenter *)

Lemma gtb_20_21 (z : Z) : (z >? 20) = (21 <=? z).
Proof. destruct (Z.gtb_spec z 20), (Z.leb_spec 21 z); auto; lia. Qed.

(** C2, as the specification states it, fails: the segmenter differs from
    one that discards the pieces shorter than 20 characters, on a text whose
    single sentence has exactly 20 characters. *)
Lemma splitIntoSentences_drops_length_20 :
  len (js "It rained on Tuesday") = 20 /\
  segmentBySpec (js "It rained on Tuesday.") = [js "It rained on Tuesday"] /\
  splitIntoSentences (js "It rained on Tuesday.") = [] /\
  splitIntoSentences (js "It rained on Tuesday.") <> segmentBySpec (js "It rained on Tuesday.").
Proof. vm_compute. repeat split; discriminate. Qed.

(** C2 (amended): the segmenter returns, in appearance order, the trimmed
    pieces between the maximal runs of '.', '!' and '?', discarding exactly
    those whose trimmed length is at most 20: a piece is kept when it has 21
    characters or more. *)
Theorem splitIntoSentences_spec (t : jsstring) :
  exists pieces,
    SplitOn isSentenceEnd t pieces /\
    (forall pieces', SplitOn isSentenceEnd t pieces' -> pieces' = pieces) /\
    Forall2 Trimmed pieces (map trim pieces) /\
    splitIntoSentences t = filter (fun p => 21 <=? len p) (map trim pieces).
Proof.
  exists (split isSentenceEnd t). split; [apply split_SplitOn|]. split; [|split].
  - intros pieces' H. apply SplitOn_unique; exact H.
  - induction (split isSentenceEnd t) as [|p l IH]; simpl; constructor;
      [apply trim_spec | exact IH].
  - unfold splitIntoSentences. apply filter_ext. intros p. apply gtb_20_21.
Qed.

Example splitIntoSentences_keeps_length_21 :
  splitIntoSentences (js "Yes. It rained on Tuesdays ?! OK")
  = [js "It rained on Tuesdays"].
Proof. reflexivity. Qed.

Lemma sentence_occurs (t s : jsstring) :
  In s (splitIntoSentences t) ->
  (exists a b, t = a ++ s ++ b) /\ 20 < len s.
Proof.
  unfold splitIntoSentences. rewrite filter_In, in_map_iff.
  intros ((p & <- & Hp) & Hlen). split; [|lia].
  destruct (SplitOn_infix _ _ _ (split_SplitOn isSentenceEnd t) p Hp) as (a & b & ->).
  destruct (trim_infix p) as (a' & b' & E).
  exists (a ++ a'), (b' ++ b). rewrite E at 1. rewrite <- !app_assoc. reflexivity.
Qed.

(** ** The segment matcher *)

Section Matcher.

Variable toLowerCase : jsstring -> jsstring.

Lemma findMatchingSegments_shape
    (originalText comparedText comparedSubmissionId : jsstring) (threshold : number)
    (m : MatchedSegment) :
  In m (findMatchingSegments toLowerCase originalText comparedText
          comparedSubmissionId threshold) ->
  exists sentence,
    In sentence (splitIntoSentences originalText) /\
    m = mkSegment sentence (indexOf originalText sentence)
          (indexOf originalText sentence + len sentence) comparedSubmissionId.
Proof.
  unfold findMatchingSegments. rewrite in_flat_map.
  intros (sentence & Hs & Hm). exists sentence. split; [exact Hs|].
  rewrite in_flat_map in Hm. destruct Hm as (compared & _ & Hm).
  unfold matchPair in Hm.
  destruct (geb _ _); [|destruct Hm].
  destruct (negb _); [|destruct Hm].
  destruct Hm as [<-|[]]. reflexivity.
Qed.

Lemma sentence_found (originalText sentence : jsstring) :
  In sentence (splitIntoSentences originalText) ->
  occursAt originalText sentence (indexOf originalText sentence) /\
  (forall k, occursAt originalText sentence k -> indexOf originalText sentence <= k) /\
  20 < len sentence.
Proof.
  intros H. destruct (sentence_occurs _ _ H) as [Hocc Hlen].
  destruct (indexOf_found _ _ Hocc) as [H1 H2]. auto.
Qed.

(** C4: every segment that [findMatchingSegments] returns satisfies
    [0 <= startIndex < endIndex <= len originalText], for every original
    text, compared text, peer identifier and threshold; and the search for a
    sentence of the original text in that text never answers [-1], so the
    branch that would drop a match is never taken. *)
Theorem findMatchingSegments_in_bounds
    (originalText comparedText comparedSubmissionId : jsstring) (threshold : number) :
  Forall (fun m => 0 <= startIndex m /\ startIndex m < endIndex m /\
                   endIndex m <= len originalText)
         (findMatchingSegments toLowerCase originalText comparedText
            comparedSubmissionId threshold) /\
  Forall (fun sentence => indexOf originalText sentence <> -1)
         (splitIntoSentences originalText).
Proof.
  split; apply Forall_forall.
  - intros m Hm. apply findMatchingSegments_shape in Hm.
    destruct Hm as (sentence & Hs & ->). simpl.
    destruct (sentence_found _ _ Hs) as (Hocc & _ & Hlen).
    apply occursAt_bounds in Hocc. lia.
  - intros sentence Hs. destruct (sentence_found _ _ Hs) as (Hocc & _ & _).
    apply occursAt_bounds in Hocc. lia.
Qed.

(** C6: the [text] of every returned segment is the substring of the
    original text at [[startIndex, endIndex)], and [startIndex] is where the
    forward search finds that text: it occurs there and nowhere earlier,
    however many times it occurs. *)
Theorem findMatchingSegments_first_occurrence
    (originalText comparedText comparedSubmissionId : jsstring) (threshold : number) :
  Forall (fun m =>
            text m = substring originalText (startIndex m) (endIndex m) /\
            startIndex m = indexOf originalText (text m) /\
            occursAt originalText (text m) (startIndex m) /\
            forall k, occursAt originalText (text m) k -> startIndex m <= k)
         (findMatchingSegments toLowerCase originalText comparedText
            comparedSubmissionId threshold).
Proof.
  apply Forall_forall. intros m Hm. apply findMatchingSegments_shape in Hm.
  destruct Hm as (sentence & Hs & ->). simpl.
  destruct (sentence_found _ _ Hs) as (Hocc & Hmin & _).
  repeat split; auto.
  apply occursAt_substring in Hocc. symmetry. apply Hocc.
Qed.

End Matcher.

(** A sentence that occurs twice in the checked text is reported twice, both
    times at its first occurrence. *)
Example findMatchingSegments_repeated_sentence :
  map (fun m => (startIndex m, endIndex m))
      (findMatchingSegments asciiLower
         (js "Intro. We went to the market today. We went to the market today.")
         (js "We went to the market today!") (js "peer") defaultThreshold)
  = [(7, 34); (7, 34)].
Proof. reflexivity. Qed.

(** ** The text normaliser *)

Ltac char_facts :=
  unfold isNormalChar, isLowerWordChar, isWordChar, isWhiteSpace, isUpper,
    isLower, isDigit, between, space in *;
  repeat rewrite ?orb_true_iff, ?andb_true_iff, ?N.leb_le, ?N.eqb_eq in *.

Lemma isWhiteSpace_range (c : char16) :
  isWhiteSpace c = true -> (c <= 32 \/ 160 <= c)%N.
Proof. char_facts. lia. Qed.

Lemma isLowerWordChar_range (c : char16) :
  isLowerWordChar c = true <->
  ((97 <= c <= 122) \/ (48 <= c <= 57) \/ c = 95)%N.
Proof. char_facts. lia. Qed.

Lemma isUpper_range (c : char16) : isUpper c = true <-> (65 <= c <= 90)%N.
Proof. char_facts. lia. Qed.

Lemma isWordChar_split (c : char16) :
  isWordChar c = isUpper c || isLowerWordChar c.
Proof.
  unfold isWordChar, isLowerWordChar. destruct (isUpper c); reflexivity.
Qed.

Lemma lowerWord_not_space (c : char16) :
  isLowerWordChar c = true -> isWhiteSpace c = false.
Proof.
  intros H. apply isLowerWordChar_range in H.
  destruct (isWhiteSpace c) eqn:E; [|reflexivity].
  apply isWhiteSpace_range in E. lia.
Qed.

Lemma normalChar_cases (c : char16) :
  isNormalChar c = true ->
  (c = space /\ isWhiteSpace c = true) \/
  (c <> space /\ isWhiteSpace c = false /\ isLowerWordChar c = true).
Proof.
  unfold isNormalChar. rewrite orb_true_iff, N.eqb_eq. intros [H| ->].
  - right. split; [|split; [apply lowerWord_not_space; exact H | exact H]].
    intros ->. discriminate H.
  - left. split; reflexivity.
Qed.

Lemma normalChar_kept (c : char16) :
  isNormalChar c = true -> isWordChar c || isWhiteSpace c = true.
Proof.
  intros H. destruct (normalChar_cases c H) as [[_ Hw] | (_ & _ & Hl)].
  - rewrite Hw. apply orb_true_r.
  - rewrite isWordChar_split, Hl. rewrite orb_true_r. reflexivity.
Qed.

(** After [toLowerCase] and the removal of punctuation, only lower-case word
    characters and white space are left. *)
Lemma stripped_chars (toLowerCase : jsstring -> jsstring) (t : jsstring) :
  LowerCaseTable toLowerCase ->
  Forall (fun c => isLowerWordChar c || isWhiteSpace c = true)
         (stripPunctuation (toLowerCase t)).
Proof.
  intros [Hup _]. specialize (Hup t). rewrite Forall_forall in *.
  intros c Hc. unfold stripPunctuation in Hc. apply filter_In in Hc.
  destruct Hc as [Hin Hk]. specialize (Hup c Hin).
  rewrite isWordChar_split, Hup in Hk. exact Hk.
Qed.

Lemma collapseAux_chars (b : bool) (s : jsstring) :
  Forall (fun c => isLowerWordChar c || isWhiteSpace c = true) s ->
  Forall (fun c => isNormalChar c = true) (collapseAux b s).
Proof.
  intros H. revert b. induction H as [|c s Hc Hs IH]; intros b; simpl; [constructor|].
  destruct (isWhiteSpace c) eqn:E.
  - destruct b; [apply IH|]. constructor; [reflexivity | apply IH].
  - constructor; [|apply IH]. rewrite orb_false_r in Hc.
    unfold isNormalChar. rewrite Hc. reflexivity.
Qed.

Lemma collapseAux_head (s : jsstring) :
  hd 0%N (collapseAux true s) <> space.
Proof.
  induction s as [|c s IH]; simpl; [discriminate|].
  destruct (isWhiteSpace c) eqn:E; [exact IH|]. simpl.
  intros ->. discriminate E.
Qed.

Lemma singleSpaced_cons (c : char16) (s : jsstring) :
  singleSpaced (c :: s) = true <->
  (c = space -> hd 0%N s <> space) /\ singleSpaced s = true.
Proof.
  destruct s as [|d s].
  - simpl. split; [intros _; split; [discriminate | reflexivity] | reflexivity].
  - change (singleSpaced (c :: d :: s))
      with (negb ((c =? space)%N && (d =? space)%N) && singleSpaced (d :: s)).
    rewrite andb_true_iff, negb_true_iff, andb_false_iff, !N.eqb_neq. simpl hd.
    split.
    + intros [Hor H']. split; [|exact H']. intros ->.
      destruct Hor as [H|H]; [congruence | exact H].
    + intros [H H']. split; [|exact H'].
      destruct (N.eq_dec c space) as [E|E]; [right; apply H; exact E | left; exact E].
Qed.

Lemma collapseAux_singleSpaced (b : bool) (s : jsstring) :
  singleSpaced (collapseAux b s) = true.
Proof.
  revert b; induction s as [|c s IH]; intros b; simpl; [reflexivity|].
  destruct (isWhiteSpace c) eqn:E.
  - destruct b; [apply IH|]. apply singleSpaced_cons. split; [|apply IH].
    intros _. apply collapseAux_head.
  - apply singleSpaced_cons. split; [|apply IH].
    intros ->. discriminate E.
Qed.

Lemma singleSpaced_app (a b : jsstring) :
  singleSpaced (a ++ b) = true -> singleSpaced a = true /\ singleSpaced b = true.
Proof.
  induction a as [|c a IH]; intros H; [split; [reflexivity | exact H]|].
  simpl app in H. apply singleSpaced_cons in H. destruct H as [Hh Hs].
  destruct (IH Hs) as [Ha Hb]. split; [|exact Hb].
  apply singleSpaced_cons. split; [|exact Ha].
  intros E. specialize (Hh E). destruct a; [discriminate | exact Hh].
Qed.

Lemma collapseAux_fixed (b : bool) (s : jsstring) :
  Forall (fun c => isNormalChar c = true) s ->
  singleSpaced s = true ->
  (b = true -> hd 0%N s <> space) ->
  collapseAux b s = s.
Proof.
  intros H. revert b. induction H as [|c s Hc Hs IH]; intros b Hsp Hb; [reflexivity|].
  apply singleSpaced_cons in Hsp. destruct Hsp as [Hh Hsp]. simpl.
  destruct (normalChar_cases c Hc) as [[-> Hw] | (Hn & Hw & _)]; rewrite Hw.
  - destruct b; [exfalso; apply (Hb eq_refl); reflexivity|].
    f_equal. apply IH; [exact Hsp|]. intros _. apply Hh; reflexivity.
  - f_equal. apply IH; [exact Hsp | discriminate].
Qed.

Lemma dropWhile_fixed (p : char16 -> bool) (s : jsstring) :
  (forall c r, s = c :: r -> p c = false) -> dropWhile p s = s.
Proof.
  destruct s as [|c s]; [reflexivity|]. intros H. simpl.
  rewrite (H c s eq_refl). reflexivity.
Qed.

Lemma trim_fixed (s : jsstring) :
  (forall c r, s = c :: r -> isWhiteSpace c = false) ->
  (forall c r, s = r ++ [c] -> isWhiteSpace c = false) ->
  trim s = s.
Proof.
  intros Hh Hl. unfold trim, trimStart, trimEnd.
  rewrite (dropWhile_fixed _ s Hh). rewrite dropWhile_fixed; [apply rev_involutive|].
  intros c r E. apply (Hl c (rev r)).
  rewrite <- (rev_involutive s), E. reflexivity.
Qed.

Lemma last_snoc (r : jsstring) (c d : char16) : last (r ++ [c]) d = c.
Proof. apply last_last. Qed.

Section Normalizer.

Variable toLowerCase : jsstring -> jsstring.
Hypothesis lowerCaseTable : LowerCaseTable toLowerCase.

Lemma normalizeText_shape (t : jsstring) :
  Forall (fun c => isNormalChar c = true) (normalizeText toLowerCase t) /\
  singleSpaced (normalizeText toLowerCase t) = true /\
  (forall c r, normalizeText toLowerCase t = c :: r -> isWhiteSpace c = false) /\
  (forall c r, normalizeText toLowerCase t = r ++ [c] -> isWhiteSpace c = false).
Proof.
  unfold normalizeText.
  set (m := collapseWhiteSpace (stripPunctuation (toLowerCase t))).
  assert (Hm : Forall (fun c => isNormalChar c = true) m)
    by (apply collapseAux_chars, stripped_chars; exact lowerCaseTable).
  assert (Hs : singleSpaced m = true) by apply collapseAux_singleSpaced.
  destruct (trim_spec m) as (a & b & E & _ & _ & Hh & Hl).
  rewrite E in Hm, Hs.
  apply Forall_app in Hm. destruct Hm as [_ Hm].
  apply Forall_app in Hm. destruct Hm as [Hm _].
  apply singleSpaced_app in Hs. destruct Hs as [_ Hs].
  apply singleSpaced_app in Hs. destruct Hs as [Hs _].
  auto.
Qed.

(** C9: the normaliser is idempotent, and its result holds only lower-case
    word characters and single spaces between them: every character is a
    space or one of [a-z0-9_], no two spaces are adjacent, and the text
    neither starts nor ends with a space. *)
Theorem normalizeText_idempotent (t : jsstring) :
  normalizeText toLowerCase (normalizeText toLowerCase t) = normalizeText toLowerCase t /\
  Forall (fun c => isLowerWordChar c = true \/ c = space) (normalizeText toLowerCase t) /\
  singleSpaced (normalizeText toLowerCase t) = true /\
  hd 0%N (normalizeText toLowerCase t) <> space /\
  last (normalizeText toLowerCase t) 0%N <> space.
Proof.
  destruct (normalizeText_shape t) as (Hc & Hs & Hh & Hl).
  set (n := normalizeText toLowerCase t) in *.
  split; [|split; [|split; [|split]]].
  - unfold normalizeText at 1.
    rewrite (lower_fixed _ lowerCaseTable n Hc).
    unfold stripPunctuation. rewrite filter_all
      by (intros c Hin; apply normalChar_kept; rewrite Forall_forall in Hc; auto).
    unfold collapseWhiteSpace. rewrite collapseAux_fixed; auto; [|discriminate].
    apply trim_fixed; assumption.
  - eapply Forall_impl; [|exact Hc]. intros c H. unfold isNormalChar in H.
    apply orb_true_iff in H. rewrite N.eqb_eq in H. exact H.
  - exact Hs.
  - destruct n as [|c r]; [discriminate|]. simpl. intros ->.
    specialize (Hh _ _ eq_refl). discriminate Hh.
  - destruct (rev n) as [|c r] eqn:E.
    + apply (f_equal (@rev _)) in E. rewrite rev_involutive in E. rewrite E. discriminate.
    + apply (f_equal (@rev _)) in E. rewrite rev_involutive in E. simpl in E.
      rewrite E, last_snoc. intros ->.
      specialize (Hl _ _ E). discriminate Hl.
Qed.

End Normalizer.

Lemma asciiLower_table : LowerCaseTable asciiLower.
Proof.
  split.
  - intros s. unfold asciiLower. apply Forall_forall. intros c Hc.
    apply in_map_iff in Hc. destruct Hc as (d & <- & _).
    destruct (isUpper d) eqn:E; [|exact E].
    apply isUpper_range in E.
    destruct (isUpper (d + 32)) eqn:E'; [|reflexivity].
    apply isUpper_range in E'. lia.
  - intros s H. unfold asciiLower. rewrite <- (map_id s) at 2.
    apply map_ext_in. intros c Hc. rewrite Forall_forall in H.
    specialize (H c Hc). destruct (isUpper c) eqn:E; [|reflexivity].
    apply isUpper_range in E.
    destruct (normalChar_cases c H) as [[Hc' _] | (_ & _ & Hl)];
      [unfold space in Hc'; lia|].
    apply isLowerWordChar_range in Hl. lia.
Qed.

Example normalizeText_example :
  normalizeText asciiLower (js "  Hello,   World!  It's_2 ") = js "hello world its_2".
Proof. reflexivity. Qed.

Lemma normalizeText_idempotent_witness :
  LowerCaseTable asciiLower /\
  let n := normalizeText asciiLower (js "  Hello,   World!  It's_2 ") in
  normalizeText asciiLower n = n /\
  Forall (fun c => isLowerWordChar c = true \/ c = space) n /\
  singleSpaced n = true /\
  hd 0%N n <> space /\
  last n 0%N <> space.
Proof.
  split; [exact asciiLower_table|].
  exact (normalizeText_idempotent asciiLower asciiLower_table
           (js "  Hello,   World!  It's_2 ")).
Defined.

(** ** The segment merger *)

(** *** Ordered pairs of a list *)

Lemma FOP_snoc {A : Type} (R : A -> A -> Prop) (l : list A) (x : A) :
  ForallOrdPairs R (l ++ [x]) <-> ForallOrdPairs R l /\ Forall (fun a => R a x) l.
Proof.
  induction l as [|a l IH]; simpl.
  - split; [intros _; split; constructor | intros _; repeat constructor].
  - split.
    + intros H. inversion H as [|? ? Ha Hl]; subst.
      apply IH in Hl. destruct Hl as [Hl Hx].
      apply Forall_app in Ha. destruct Ha as [Ha Hax].
      split; constructor; auto. inversion Hax; auto.
    + intros [H Hx]. inversion H as [|? ? Ha Hl]; subst.
      inversion Hx as [|? ? Hax Hx']; subst.
      constructor; [apply Forall_app; split; auto | apply IH; auto].
Qed.

Lemma FOP_impl_in {A : Type} (R R' : A -> A -> Prop) (l : list A) :
  (forall a b, In a l -> In b l -> R a b -> R' a b) ->
  ForallOrdPairs R l -> ForallOrdPairs R' l.
Proof.
  intros H Hl. induction Hl as [|a l Ha Hl IH]; constructor.
  - rewrite Forall_forall in *. intros b Hb. apply H; simpl; auto.
  - apply IH. intros x y Hx Hy. apply H; simpl; auto.
Qed.

Lemma FOP_map {A B : Type} (f : A -> B) (R : B -> B -> Prop) (l : list A) :
  ForallOrdPairs (fun a b => R (f a) (f b)) l -> ForallOrdPairs R (map f l).
Proof.
  induction 1 as [|a l Ha Hl IH]; simpl; constructor; auto.
  rewrite Forall_forall in *. intros b Hb. apply in_map_iff in Hb.
  destruct Hb as (x & <- & Hx). auto.
Qed.

Lemma FOP_cons_inv {A : Type} (R : A -> A -> Prop) (a : A) (l : list A) :
  ForallOrdPairs R (a :: l) -> (forall b, In b l -> R a b) /\ ForallOrdPairs R l.
Proof.
  intros H. inversion H as [|? ? Ha Hl]; subst. rewrite Forall_forall in Ha. auto.
Qed.

Lemma FOP_sorted {A : Type} (R : A -> A -> Prop) (l : list A) :
  ForallOrdPairs R l <-> StronglySorted R l.
Proof. split; induction 1; constructor; auto. Qed.

Lemma FOP_app_l {A : Type} (R : A -> A -> Prop) (l1 l2 : list A) :
  ForallOrdPairs R (l1 ++ l2) ->
  ForallOrdPairs R l1 /\ ForallOrdPairs R l2 /\
  forall a b, In a l1 -> In b l2 -> R a b.
Proof.
  induction l1 as [|x l1 IH]; simpl; intros H.
  - repeat split; [constructor | exact H | intros a b []].
  - inversion H as [|? ? Hx Hl]; subst. apply Forall_app in Hx.
    destruct Hx as [Hx1 Hx2]. destruct (IH Hl) as (H1 & H2 & H12).
    repeat split; [constructor; auto | exact H2 |].
    intros a b [<-|Ha] Hb; [|auto]. rewrite Forall_forall in Hx2. auto.
Qed.

Lemma Forall2_impl_in {A B : Type} (R R' : A -> B -> Prop) (l1 : list A) (l2 : list B) :
  (forall a b, In a l1 -> In b l2 -> R a b -> R' a b) ->
  Forall2 R l1 l2 -> Forall2 R' l1 l2.
Proof.
  intros H Hl. induction Hl as [|a b l1 l2 Hab Hl IH]; constructor.
  - apply H; simpl; auto.
  - apply IH. intros x y Hx Hy. apply H; simpl; auto.
Qed.

Lemma Forall2_in_l {A B : Type} (R : A -> B -> Prop) (l1 : list A) (l2 : list B) (a : A) :
  Forall2 R l1 l2 -> In a l1 -> exists b, In b l2 /\ R a b.
Proof.
  induction 1 as [|x y l1 l2 Hxy Hl IH]; intros Ha; [destruct Ha|].
  destruct Ha as [<-|Ha]; [exists y; simpl; auto|].
  destruct (IH Ha) as (b & Hb & Hab). exists b; simpl; auto.
Qed.

Lemma Forall2_in_r {A B : Type} (R : A -> B -> Prop) (l1 : list A) (l2 : list B) (b : B) :
  Forall2 R l1 l2 -> In b l2 -> exists a, In a l1 /\ R a b.
Proof.
  induction 1 as [|x y l1 l2 Hxy Hl IH]; intros Hb; [destruct Hb|].
  destruct Hb as [<-|Hb]; [exists x; simpl; auto|].
  destruct (IH Hb) as (a & Ha & Hab). exists a; simpl; auto.
Qed.

(** *** The stable sort *)

Section SortFacts.

Variable h : Heap.

Local Abbreviation lt := (startsBefore h).
Local Abbreviation le := (fun a b : ref => startIndex (h a) <= startIndex (h b)).

Lemma insertBy_perm (x : ref) (l : list ref) : Permutation (x :: l) (insertBy lt x l).
Proof.
  induction l as [|y l IH]; simpl; [reflexivity|].
  destruct (startsBefore h y x); [|reflexivity].
  rewrite perm_swap. constructor. exact IH.
Qed.

Lemma sorted_perm (segments : list ref) : Permutation segments (sortBy lt segments).
Proof.
  induction segments as [|x l IH]; simpl; [constructor|].
  rewrite <- insertBy_perm. constructor. exact IH.
Qed.

Lemma insertBy_sorted (x : ref) (l : list ref) :
  ForallOrdPairs le l -> ForallOrdPairs le (insertBy lt x l).
Proof.
  induction 1 as [|y l Hy Hl IH]; simpl; [repeat constructor|].
  unfold startsBefore at 1. destruct (Z.ltb_spec (startIndex (h y) - startIndex (h x)) 0) as [E|E].
  - constructor; [|exact IH].
    rewrite Forall_forall in *. intros z Hz.
    apply (Permutation_in _ (Permutation_sym (insertBy_perm x l))) in Hz.
    destruct Hz as [<-|Hz]; [lia | auto].
  - constructor; [|constructor; auto].
    constructor; [lia|].
    rewrite Forall_forall in *. intros z Hz. specialize (Hy z Hz). simpl in Hy. lia.
Qed.

Lemma sorted_sorted (segments : list ref) : ForallOrdPairs le (sortBy lt segments).
Proof.
  induction segments as [|x l IH]; simpl; [constructor | apply insertBy_sorted; exact IH].
Qed.

End SortFacts.

(** *** The loop invariant *)

Lemma store_same (h : Heap) (r : ref) (v : MatchedSegment) : store h r v r = v.
Proof. unfold store. rewrite Nat.eqb_refl. reflexivity. Qed.

Lemma store_other (h : Heap) (r r' : ref) (v : MatchedSegment) :
  r' <> r -> store h r v r' = h r'.
Proof. unfold store. intros H. apply Nat.eqb_neq in H. rewrite H. reflexivity. Qed.

Lemma appendToLast_snoc (groups : list (list ref)) (g : list ref) (r : ref) :
  appendToLast (groups ++ [g]) r = groups ++ [g ++ [r]].
Proof.
  unfold appendToLast. rewrite rev_app_distr. simpl. rewrite rev_involutive. reflexivity.
Qed.

Lemma fold_groupStep_fst (rest : list ref) (st : Heap * list ref) (groups : list (list ref)) :
  fst (fold_left groupStep rest (st, groups)) = fold_left mergeStep rest st.
Proof.
  revert st groups; induction rest as [|c rest IH]; intros st groups; simpl; [reflexivity|].
  apply IH.
Qed.

Section MergeInvariant.

(** The store before the call. *)
Variable h0 : Heap.

Local Abbreviation key := (startOf h0).
Local Abbreviation GroupOk := (GroupOk h0).
Local Abbreviation Inv := (Inv h0).

Lemma Inv_init (first : ref) : Inv [first] h0 [first] [[first]].
Proof.
  split; auto; try (repeat constructor; fail); try discriminate.
  - intros r; lia.
  - constructor; [|constructor]. split; [exists []; reflexivity|]. split.
    + constructor; [lia | constructor].
    + intros x. split.
      * intros H. exists first. split; [left; reflexivity | exact H].
      * intros (r & [<-|[]] & H). exact H.
Qed.

Lemma GroupOk_head_in (h : Heap) (m : ref) (g : list ref) :
  GroupOk h m g -> In m g.
Proof. intros [(tl & ->) _]. left; reflexivity. Qed.

Lemma groupStep_Inv (processed : list ref) (h : Heap) (merged : list ref)
    (groups : list (list ref)) (current : ref) :
  Inv processed h merged groups ->
  (forall r, In r processed -> key r <= key current) ->
  Inv (processed ++ [current])
      (fst (fst (groupStep (h, merged, groups) current)))
      (snd (fst (groupStep (h, merged, groups) current)))
      (snd (groupStep (h, merged, groups) current)).
Proof.
  intros [Hframe Hgrow Htouched Hgroups Hconcat Hgap Hsorted Hne] Hkey.
  destruct (exists_last Hne) as (minit & l & ->).
  apply Forall2_app_inv_l in Hgroups.
  destruct Hgroups as (ginit & gl & Hginit & Hgl & ->).
  inversion Hgl as [|? g ? gnil Hg Hnil]; subst. inversion Hnil; subst. clear Hgl Hnil.
  apply FOP_snoc in Hgap. destruct Hgap as [Hgap Hgapl].
  apply FOP_snoc in Hsorted. destruct Hsorted as [Hsorted Hsortedl].
  rewrite Forall_forall in Hgapl, Hsortedl.
  assert (Hl : key l <= key current).
  { apply Hkey. rewrite concat_app. apply in_or_app; right. simpl.
    rewrite app_nil_r. apply (GroupOk_head_in _ _ _ Hg). }
  assert (Hsc : startIndex (h current) = key current) by apply Hframe.
  assert (Hsl : startIndex (h l) = key l) by apply Hframe.
  unfold groupStep, mergeStep. rewrite last_last.
  destruct (Z.leb_spec (startIndex (h current)) (endIndex (h l))) as [Hle|Hgt];
    cbn [fst snd].
  - (* folded into the last span *)
    rewrite Nat.eqb_refl, appendToLast_snoc.
    set (e := Z.max (endIndex (h l)) (endIndex (h current))).
    set (h1 := store h l (setEndIndex (h l) e)).
    set (h2 := store h1 l (setText (h1 l) (text (h1 l) ++ [space] ++ text (h1 current)))).
    assert (Hh2l : startIndex (h2 l) = key l /\ endIndex (h2 l) = e /\
                   matchedSubmissionId (h2 l) = matchedSubmissionId (h0 l)).
    { assert (E1 : h1 l = setEndIndex (h l) e) by apply store_same.
      assert (E2 : h2 l = setText (h1 l) (text (h1 l) ++ [space] ++ text (h1 current)))
        by apply store_same.
      rewrite E2. unfold setText; simpl. rewrite E1. unfold setEndIndex; simpl.
      split; [exact Hsl|]. split; [reflexivity | apply Hframe]. }
    assert (Hh2o : forall r, r <> l -> h2 r = h r).
    { intros r Hr. unfold h2, h1. rewrite !store_other by exact Hr. reflexivity. }
    assert (Hnotl : forall a, In a minit -> a <> l).
    { intros a Ha ->. specialize (Hgapl l Ha). simpl in Hgapl. lia. }
    assert (Hcur_end : endIndex (h current) <= endIndex (h l) \/
                       endIndex (h current) = endIndex (h0 current)).
    { destruct (Htouched current) as [E|Hin]; [right; exact E|]. left.
      apply in_app_or in Hin. destruct Hin as [Hin|[<-|[]]]; [|lia].
      specialize (Hgapl current Hin). simpl in Hgapl. lia. }
    destruct Hh2l as (Hs2 & He2 & Hi2).
    split.
    + intros r. destruct (Nat.eq_dec r l) as [->|Hr]; [split; assumption|].
      rewrite (Hh2o r Hr). apply Hframe.
    + intros r. destruct (Nat.eq_dec r l) as [->|Hr].
      * rewrite He2. specialize (Hgrow l). lia.
      * rewrite (Hh2o r Hr). apply Hgrow.
    + intros r. destruct (Nat.eq_dec r l) as [->|Hr].
      * right. apply in_or_app; right; left; reflexivity.
      * rewrite (Hh2o r Hr). apply Htouched.
    + apply Forall2_app.
      * eapply Forall2_impl_in; [|exact Hginit]. 
        intros m g' Hm _ (Hhd & Hmin & Hcov). split; [exact Hhd|]. split; [exact Hmin|].
        rewrite (Hh2o m (Hnotl m Hm)). exact Hcov.
      * constructor; [|constructor]. destruct Hg as ((tl & ->) & Hmin & Hcov).
        split; [exists (tl ++ [current]); reflexivity|]. split.
        { apply Forall_app. split; [exact Hmin|]. constructor; [exact Hl | constructor]. }
        intros x. unfold covers. rewrite Hs2, He2. split.
        { intros Hx. destruct (Z.lt_ge_cases x (endIndex (h l))) as [Hlt|Hge].
          - destruct (proj1 (Hcov x)) as (r & Hr & Hrx); [unfold covers; lia|].
            exists r. split; [apply in_or_app; left; exact Hr | exact Hrx].
          - exists current. split; [apply in_or_app; right; left; reflexivity|].
            unfold covers. fold (key current). lia. }
        { intros (r & Hr & Hrx). apply in_app_or in Hr. destruct Hr as [Hr|[<-|[]]].
          - destruct (proj2 (Hcov x)) as [Hx1 Hx2]; [exists r; auto|]. lia.
          - unfold covers in Hrx. fold (key current) in Hrx.
            specialize (Hgrow current). lia. }
    + rewrite !concat_app. simpl. rewrite !app_nil_r, app_assoc. reflexivity.
    + apply FOP_snoc. split.
      * eapply FOP_impl_in; [|exact Hgap]. intros a b Ha _ Hab.
        rewrite (Hh2o a (Hnotl a Ha)). exact Hab.
      * apply Forall_forall. intros a Ha.
        rewrite (Hh2o a (Hnotl a Ha)). apply Hgapl; exact Ha.
    + apply FOP_snoc. split; [exact Hsorted | apply Forall_forall; exact Hsortedl].
    + intros E. apply app_eq_nil in E. destruct E as [_ E]; discriminate E.
  - (* a new span *)
    replace (length ((minit ++ [l]) ++ [current]) =? length (minit ++ [l]))%nat
      with false by (symmetry; apply Nat.eqb_neq; rewrite !length_app; simpl; lia).
    assert (Hempty : forall r, In r (minit ++ [l]) -> r = current ->
                               endIndex (h current) < key current).
    { intros r Hin ->. apply in_app_or in Hin. destruct Hin as [Hin|[<-|[]]]; [|lia].
      specialize (Hgapl current Hin). simpl in Hgapl. lia. }
    split.
    + exact Hframe.
    + exact Hgrow.
    + intros r. destruct (Htouched r) as [E|Hin]; [left; exact E|].
      right. apply in_or_app; left; exact Hin.
    + apply Forall2_app.
      * apply Forall2_app; [exact Hginit | constructor; [exact Hg | constructor]].
      * constructor; [|constructor]. split; [exists []; reflexivity|]. split.
        { constructor; [lia | constructor]. }
        intros x. split.
        { intros Hx. exists current. split; [left; reflexivity|].
          unfold covers in *. fold (key current). rewrite Hsc in Hx.
          destruct (Htouched current) as [E|Hin]; [lia|].
          specialize (Hempty current Hin eq_refl). lia. }
        { intros (r & [<-|[]] & Hrx). unfold covers in *. fold (key current) in Hrx.
          rewrite Hsc. specialize (Hgrow current). lia. }
    + rewrite (concat_app (ginit ++ [g])). reflexivity.
    + apply FOP_snoc. split.
      * apply FOP_snoc. split; [exact Hgap | apply Forall_forall; exact Hgapl].
      * apply Forall_forall. intros a Ha. apply in_app_or in Ha.
        destruct Ha as [Ha|[<-|[]]]; [|lia].
        specialize (Hgapl a Ha). simpl in Hgapl. lia.
    + apply FOP_snoc. split.
      * apply FOP_snoc. split; [exact Hsorted | apply Forall_forall; exact Hsortedl].
      * apply Forall_forall. intros a Ha. apply in_app_or in Ha.
        destruct Ha as [Ha|[<-|[]]]; [|lia].
        specialize (Hsortedl a Ha). simpl in Hsortedl. lia.
    + intros E. apply app_eq_nil in E. destruct E as [_ E]; discriminate E.
Qed.

End MergeInvariant.

Lemma fold_groupStep_Inv (h0 : Heap) (rest : list ref) :
  forall (processed : list ref) (h : Heap) (merged : list ref) (groups : list (list ref)),
    Inv h0 processed h merged groups ->
    ForallOrdPairs (fun a b => startIndex (h0 a) <= startIndex (h0 b)) (processed ++ rest) ->
    Inv h0 (processed ++ rest)
        (fst (fst (fold_left groupStep rest (h, merged, groups))))
        (snd (fst (fold_left groupStep rest (h, merged, groups))))
        (snd (fold_left groupStep rest (h, merged, groups))).
Proof.
  induction rest as [|c rest IH]; intros processed h merged groups HI Hs.
  - rewrite app_nil_r. exact HI.
  - cbn [fold_left].
    assert (Hstep := groupStep_Inv h0 processed h merged groups c HI).
    destruct (groupStep (h, merged, groups) c) as [[h' merged'] groups'].
    replace (processed ++ c :: rest) with ((processed ++ [c]) ++ rest) in *
      by (rewrite <- app_assoc; reflexivity).
    apply IH; [|exact Hs]. apply Hstep.
    intros r Hr. apply FOP_app_l in Hs. destruct Hs as (Hs & _).
    apply FOP_snoc in Hs. destruct Hs as [_ Hs].
    rewrite Forall_forall in Hs. apply Hs; exact Hr.
Qed.

(** The invariant holds of what the merger returns. *)
Lemma merge_run (segments : list ref) (h : Heap) (first : ref) (rest : list ref) :
  sortBy (startsBefore h) segments = first :: rest ->
  exists merged h',
    mergeOverlappingSegments segments h = (merged, h') /\
    Inv h (first :: rest) h' merged (coalesced segments h).
Proof.
  intros E. unfold mergeOverlappingSegments, coalesced.
  rewrite E.
  assert (HI := fold_groupStep_Inv h rest [first] h [first] [[first]] (Inv_init h first)).
  rewrite <- (fold_groupStep_fst rest (h, [first]) [[first]]).
  destruct (fold_left groupStep rest (h, [first], [[first]])) as [[h' merged] groups].
  exists merged, h'. split; [reflexivity|].
  apply HI. simpl. rewrite <- E. apply sorted_sorted.
Qed.

Lemma sorted_nil (segments : list ref) (h : Heap) :
  sortBy (startsBefore h) segments = [] -> segments = [].
Proof.
  intros E. apply Permutation_nil. rewrite <- E. symmetry. apply sorted_perm.
Qed.

Lemma merge_sound (segments : list ref) (h : Heap) :
  let (merged, h') := mergeOverlappingSegments segments h in
  StronglySorted byStartIndex (deref h' merged) /\
  ForallOrdPairs (fun a b => endIndex a < startIndex b) (deref h' merged) /\
  forall x, covered (deref h' merged) x <-> covered (deref h segments) x.
Proof.
  destruct (sortBy (startsBefore h) segments) as [|first rest] eqn:E.
  - apply sorted_nil in E. subst segments. simpl.
    split; [constructor|]. split; [constructor|]. intros x; reflexivity.
  - destruct (merge_run segments h first rest E) as (merged & h' & -> & HI).
    destruct HI as [Hframe Hgrow Htouched Hgroups Hconcat Hgap Hsorted Hne].
    split; [|split].
    + apply FOP_sorted. unfold deref. apply FOP_map.
      eapply FOP_impl_in; [|exact Hsorted]. intros a b _ _ Hab. unfold byStartIndex.
      rewrite (proj1 (Hframe a)), (proj1 (Hframe b)). exact Hab.
    + unfold deref. apply FOP_map.
      eapply FOP_impl_in; [|exact Hgap]. intros a b _ _ Hab.
      rewrite (proj1 (Hframe b)). exact Hab.
    + intros x. unfold covered, deref. split.
      * intros (v & Hv & Hx). apply in_map_iff in Hv. destruct Hv as (m & <- & Hm).
        destruct (Forall2_in_l _ _ _ m Hgroups Hm) as (g & Hg & _ & _ & Hcov).
        apply Hcov in Hx. destruct Hx as (r & Hr & Hx).
        exists (h r). split; [|exact Hx]. apply in_map.
        apply (Permutation_in _ (Permutation_sym (sorted_perm h segments))).
        rewrite E, <- Hconcat. apply in_concat. exists g; auto.
      * intros (v & Hv & Hx). apply in_map_iff in Hv. destruct Hv as (r & <- & Hr).
        apply (Permutation_in _ (sorted_perm h segments)) in Hr.
        rewrite E, <- Hconcat in Hr. apply in_concat in Hr. destruct Hr as (g & Hg & Hr).
        destruct (Forall2_in_r _ _ _ g Hgroups Hg) as (m & Hm & _ & _ & Hcov).
        exists (h' m). split; [apply in_map; exact Hm|].
        apply Hcov. exists r; auto.
Qed.

Lemma gap_disjoint (l : list MatchedSegment) :
  ForallOrdPairs (fun a b => endIndex a < startIndex b) l ->
  ForallOrdPairs disjointSpans l.
Proof.
  apply FOP_impl_in. intros a b _ _ Hab x [Ha Hb]. unfold covers in *. lia.
Qed.

(** C3: merging no segment gives none; and for every array of segments the
    merged spans are sorted by [startIndex], pairwise disjoint, and cover
    exactly the positions that the given segments covered. *)
Theorem mergeOverlappingSegments_spec (segments : list ref) (h : Heap) :
  mergeOverlappingSegments [] h = ([], h) /\
  let (merged, h') := mergeOverlappingSegments segments h in
  StronglySorted byStartIndex (deref h' merged) /\
  ForallOrdPairs disjointSpans (deref h' merged) /\
  forall x, covered (deref h' merged) x <-> covered (deref h segments) x.
Proof.
  split; [reflexivity|].
  pose proof (merge_sound segments h) as H.
  destruct (mergeOverlappingSegments segments h) as [merged h'].
  destruct H as (Hs & Hg & Hc). split; [exact Hs|]. split; [|exact Hc].
  apply gap_disjoint; exact Hg.
Qed.

Lemma deref_heapOf_from (l pre : list MatchedSegment) :
  deref (heapOf (pre ++ l)) (seq (length pre) (length l)) = l.
Proof.
  revert pre; induction l as [|x l IH]; intros pre; simpl; [reflexivity|].
  f_equal.
  - unfold heapOf. apply nth_middle.
  - specialize (IH (pre ++ [x])). rewrite <- app_assoc, length_app in IH. simpl in IH.
    rewrite Nat.add_1_r in IH. exact IH.
Qed.

(** The same on an array of distinct objects, as values; between two merged
    spans there is always at least one position that neither covers. *)
Corollary mergeValues_sound (segments : list MatchedSegment) :
  StronglySorted byStartIndex (mergeValues segments) /\
  ForallOrdPairs (fun a b => endIndex a < startIndex b) (mergeValues segments) /\
  forall x, covered (mergeValues segments) x <-> covered segments x.
Proof.
  unfold mergeValues.
  pose proof (merge_sound (seq 0 (length segments)) (heapOf segments)) as H.
  destruct (mergeOverlappingSegments _ _) as [merged h'].
  pose proof (deref_heapOf_from segments []) as E. simpl in E.
  rewrite E in H. exact H.
Qed.

(** C10: every merged span is the object of the first segment folded into
    it; that segment starts no later than any other segment folded into the
    span, and the span keeps its [startIndex] and its
    [matchedSubmissionId], whichever peers the other segments matched. *)
Theorem merged_span_keeps_first_identifier (segments : list ref) (h : Heap) :
  let (merged, h') := mergeOverlappingSegments segments h in
  Permutation (concat (coalesced segments h)) segments /\
  Forall2 (fun m g =>
             In m g /\
             Forall (fun r => startIndex (h m) <= startIndex (h r)) g /\
             (forall x, covers (h' m) x <-> exists r, In r g /\ covers (h r) x) /\
             startIndex (h' m) = startIndex (h m) /\
             matchedSubmissionId (h' m) = matchedSubmissionId (h m))
          merged (coalesced segments h).
Proof.
  destruct (sortBy (startsBefore h) segments) as [|first rest] eqn:E.
  - assert (Ec : coalesced segments h = []).
    { unfold coalesced.
      rewrite E. reflexivity. }
    apply sorted_nil in E. subst segments. rewrite Ec. simpl.
    split; constructor.
  - destruct (merge_run segments h first rest E) as (merged & h' & -> & HI).
    destruct HI as [Hframe Hgrow Htouched Hgroups Hconcat Hgap Hsorted Hne].
    split.
    + rewrite Hconcat, <- E. symmetry. apply sorted_perm.
    + eapply Forall2_impl_in; [|exact Hgroups].
      intros m g _ _ Hg. split; [apply (GroupOk_head_in _ _ _ _ Hg)|].
      destruct Hg as (_ & Hmin & Hcov). repeat split; try apply Hcov; auto; apply Hframe.
Qed.

(** *** Segments inside one span *)

(** C7, as the specification states it, fails: segments that all lie
    inside a span [[s, e)] need not merge into one span, and what they merge
    into need not be [[s, e)]. *)
Lemma merge_inside_span_counterexample :
  ~ (forall (segments : list MatchedSegment) (s e : Z),
       segments <> [] ->
       Forall (fun m => s <= startIndex m /\ startIndex m < endIndex m /\ endIndex m <= e)
              segments ->
       exists m, mergeValues segments = [m] /\ startIndex m = s /\ endIndex m = e).
Proof.
  intros H.
  destruct (H [mkSegment (js "ab") 0 2 (js "p"); mkSegment (js "fg") 5 7 (js "p")] 0 10)
    as (m & E & _).
  - discriminate.
  - repeat constructor; simpl; lia.
  - vm_compute in E. discriminate E.
Qed.

(** C7 (amended): when the segments of a non-empty array are well formed
    ([startIndex <= endIndex]), each lies inside [[s, e)], and together they
    cover it (every position of [[s, e)] lies in one of them), merging
    yields exactly one span, and that span is [[s, e)]. *)
Theorem merge_covering_segments (segments : list ref) (h : Heap) (s e : Z) :
  segments <> [] ->
  (forall r, In r segments ->
     s <= startIndex (h r) /\ startIndex (h r) <= endIndex (h r) /\ endIndex (h r) <= e) ->
  (forall x, s <= x < e -> covered (deref h segments) x) ->
  let (merged, h') := mergeOverlappingSegments segments h in
  exists m, merged = [m] /\ startIndex (h' m) = s /\ endIndex (h' m) = e.
Proof.
  intros Hnonempty Hall Hcov.
  destruct (sortBy (startsBefore h) segments) as [|first rest] eqn:E;
    [apply sorted_nil in E; congruence|].
  destruct (merge_run segments h first rest E) as (merged & h' & -> & HI).
  destruct HI as [Hframe Hgrow _ Hgroups Hconcat Hgap _ Hne].
  pose proof (sorted_perm h segments) as Hperm. rewrite E in Hperm.
  assert (Hgroup : forall g r, In g (coalesced segments h) -> In r g -> In r segments).
  { intros g r Hg Hr. apply (Permutation_in _ (Permutation_sym Hperm)).
    rewrite <- Hconcat. apply in_concat. exists g; auto. }
  assert (Hspan : forall m, In m merged ->
            s <= startIndex (h' m) /\ startIndex (h' m) <= endIndex (h' m) /\
            endIndex (h' m) <= e).
  { intros m Hm. destruct (Forall2_in_l _ _ _ m Hgroups Hm) as (g & Hg & Hok).
    pose proof (GroupOk_head_in _ _ _ _ Hok) as Hmg. destruct Hok as (_ & _ & Hc).
    destruct (Hall m (Hgroup g m Hg Hmg)) as (H1 & H2 & H3).
    destruct (Hframe m) as [Hs _]. unfold startOf in Hs. specialize (Hgrow m).
    split; [lia|]. split; [lia|].
    destruct (Z_le_gt_dec (endIndex (h' m)) e) as [Hle|Hgt]; [exact Hle|]. exfalso.
    assert (Hce : covers (h' m) e) by (unfold covers; lia).
    apply Hc in Hce. destruct Hce as (r & Hr & Hre).
    destruct (Hall r (Hgroup g r Hg Hr)) as (_ & _ & Hr3). unfold covers in Hre. lia. }
  assert (Hout : forall x, s <= x < e -> exists m, In m merged /\ covers (h' m) x).
  { intros x Hx. destruct (Hcov x Hx) as (v & Hv & Hvx).
    unfold deref in Hv. apply in_map_iff in Hv. destruct Hv as (r & <- & Hr).
    apply (Permutation_in _ Hperm) in Hr. rewrite <- Hconcat in Hr.
    apply in_concat in Hr. destruct Hr as (g & Hg & Hr).
    destruct (Forall2_in_r _ _ _ g Hgroups Hg) as (m & Hm & _ & _ & Hc).
    exists m. split; [exact Hm|]. apply Hc. exists r; auto. }
  destruct merged as [|a [|b l]]; [congruence | |].
  - exists a. split; [reflexivity|].
    destruct (Hspan a (or_introl eq_refl)) as (H1 & H2 & H3).
    destruct (Z_lt_ge_dec s e) as [Hlt|Hge]; [|lia].
    destruct (Hout s) as (m & [<-|[]] & Hms); [lia|].
    destruct (Hout (e - 1)) as (m' & [<-|[]] & Hme); [lia|].
    unfold covers in *. lia.
  - exfalso. apply FOP_cons_inv in Hgap. destruct Hgap as [Hgap _].
    destruct (Hspan a (or_introl eq_refl)) as (Ha1 & Ha2 & _).
    destruct (Hspan b (or_intror (or_introl eq_refl))) as (_ & Hb2 & Hb3).
    pose proof (Hgap b (or_introl eq_refl)) as Hab.
    destruct (Hframe b) as [Hsb _]. rewrite <- Hsb in Hab.
    destruct (Hout (endIndex (h' a))) as (m & Hm & Hmx); [lia|].
    unfold covers in Hmx. destruct Hm as [<-|Hm]; [lia|].
    specialize (Hgap m Hm). destruct (Hframe m) as [Hsm _]. rewrite <- Hsm in Hgap. lia.
Qed.

Lemma merge_covering_segments_witness :
  let h := twoOverlapping in
  ([0; 1]%nat <> [] /\
   (forall r, In r [0; 1]%nat ->
      5 <= startIndex (h r) /\ startIndex (h r) <= endIndex (h r) /\ endIndex (h r) <= 44) /\
   (forall x, 5 <= x < 44 -> covered (deref h [0; 1]%nat) x)) /\
  let (merged, h') := mergeOverlappingSegments [0; 1]%nat h in
  exists m, merged = [m] /\ startIndex (h' m) = 5 /\ endIndex (h' m) = 44.
Proof.
  intro h.
  assert (Hne : [0; 1]%nat <> []) by discriminate.
  assert (Hall : forall r, In r [0; 1]%nat ->
            5 <= startIndex (h r) /\ startIndex (h r) <= endIndex (h r) /\
            endIndex (h r) <= 44).
  { intros r [<-|[<-|[]]]; vm_compute; repeat split; discriminate. }
  assert (Hcov : forall x, 5 <= x < 44 -> covered (deref h [0; 1]%nat) x).
  { intros x Hx. destruct (Z_lt_ge_dec x 28) as [Hlt|Hge].
    - exists (h 1%nat). split; [right; left; reflexivity | unfold covers; simpl; lia].
    - exists (h 0%nat). split; [left; reflexivity | unfold covers; simpl; lia]. }
  split; [split; [exact Hne | split; [exact Hall | exact Hcov]]|].
  exact (merge_covering_segments [0; 1]%nat h 5 44 Hne Hall Hcov).
Defined.

(** Segments inside one of them merge into that one. *)
Example merge_inside_one_segment :
  let (merged, h') := mergeOverlappingSegments [0; 1; 2]%nat threeSegments in
  spansOf h' merged = [(0, 8)].
Proof. reflexivity. Qed.

(** *** Runs of the merger *)

(** Two overlapping matches against different peers and a third one apart:
    the first span keeps the identifier of the segment that starts first. *)
Example mergeValues_two_peers :
  mergeValues [mkSegment (js "lazy dog") 5 13 (js "peer1");
               mkSegment (js "the lazy") 1 9 (js "peer2");
               mkSegment (js "park") 20 24 (js "peer1")]
  = [mkSegment (js "the lazy lazy dog") 1 13 (js "peer2");
     mkSegment (js "park") 20 24 (js "peer1")].
Proof. reflexivity. Qed.

Example coalesced_two_peers :
  coalesced [0; 1; 2]%nat
    (heapOf [mkSegment (js "lazy dog") 5 13 (js "peer1");
             mkSegment (js "the lazy") 1 9 (js "peer2");
             mkSegment (js "park") 20 24 (js "peer1")])
  = [[1; 0]; [2]]%nat.
Proof. reflexivity. Qed.

(** Segments that touch are joined; segments with equal [startIndex] keep
    their order in the array. *)
Example mergeValues_touching :
  mergeValues [mkSegment (js "b") 4 6 (js "p1"); mkSegment (js "a") 0 4 (js "p2");
               mkSegment (js "c") 0 2 (js "p3")]
  = [mkSegment (js "a c b") 0 6 (js "p2")].
Proof. reflexivity. Qed.

(** The same object twice in the array: the object is folded into itself. *)
Example merge_aliased :
  let (merged, h') :=
    mergeOverlappingSegments [0; 0]%nat (heapOf [mkSegment (js "ab") 3 5 (js "p")]) in
  deref h' merged = [mkSegment (js "ab ab") 3 5 (js "p")].
Proof. reflexivity. Qed.

(** ** The orchestrator *)

Lemma selectSubmission_run (submissionId : jsstring) (w : World) :
  selectSubmission submissionId w
  = (match filter (fun s => eqb (sub_id s) submissionId) (submissions w) with
     | [s] => Some s
     | _ => None
     end,
     mkWorld (submissions w) (plagiarism_reports w) (heap w) (nextRef w)
             (events w ++ [SelectSubmission submissionId])).
Proof. reflexivity. Qed.

(** C5: when no submission has the given identifier, or the one that has it
    has empty content, [checkPlagiarism] answers with the error
    "Submission not found or empty"; the run then consists of the one query
    for the submission: nothing is compared, no report row is inserted, and
    the stored submissions, reports and segment objects are as before. *)
Theorem checkPlagiarism_not_found
    (toLowerCase : jsstring -> jsstring) (submissionId assignmentId : jsstring) (w : World) :
  (~ (exists s, In s (submissions w) /\ sub_id s = submissionId)) \/
  (exists s, In s (submissions w) /\ sub_id s = submissionId /\ sub_content s = Some []) ->
  let (result, w') := checkPlagiarism toLowerCase submissionId assignmentId w in
  result = CheckError errorMessage /\
  plagiarism_reports w' = plagiarism_reports w /\
  submissions w' = submissions w /\
  heap w' = heap w /\
  events w' = events w ++ [SelectSubmission submissionId].
Proof.
  intros H. unfold checkPlagiarism, bind. rewrite selectSubmission_run.
  set (found := filter (fun s => eqb (sub_id s) submissionId) (submissions w)).
  assert (Hfound : forall s, In s found <-> In s (submissions w) /\ sub_id s = submissionId).
  { intros s. unfold found. rewrite filter_In, eqb_eq. reflexivity. }
  assert (E : match match found with [s] => Some s | _ => None end with
              | Some s => truthy (sub_content s)
              | None => None
              end = None).
  { destruct found as [|a [|b rest]]; try reflexivity.
    destruct H as [H|(s & Hs & Hid & Hc)].
    - exfalso. apply H. exists a. apply Hfound. left; reflexivity.
    - assert (Ha : In s [a]) by (apply Hfound; auto).
      destruct Ha as [->|[]]. rewrite Hc. reflexivity. }
  rewrite E. simpl. auto.
Qed.

Lemma checkPlagiarism_not_found_witness :
  ((~ (exists s, In s (submissions classroom) /\ sub_id s = js "s3")) \/
   (exists s, In s (submissions classroom) /\ sub_id s = js "s3" /\ sub_content s = Some [])) /\
  let (result, w') := checkPlagiarism asciiLower (js "s3") (js "a1") classroom in
  result = CheckError errorMessage /\
  plagiarism_reports w' = plagiarism_reports classroom /\
  submissions w' = submissions classroom /\
  heap w' = heap classroom /\
  events w' = events classroom ++ [SelectSubmission (js "s3")].
Proof.
  assert (H : (~ (exists s, In s (submissions classroom) /\ sub_id s = js "s3")) \/
              (exists s, In s (submissions classroom) /\ sub_id s = js "s3" /\
                         sub_content s = Some [])).
  { right. exists (mkSubmission (js "s3") (js "a1") (js "u3") (Some []) submitted).
    simpl. auto. }
  split; [exact H|].
  exact (checkPlagiarism_not_found asciiLower (js "s3") (js "a1") classroom H).
Defined.

Example checkPlagiarism_unknown_submission :
  fst (checkPlagiarism asciiLower (js "nobody") (js "a1") classroom)
  = CheckError errorMessage.
Proof. reflexivity. Qed.

(** A run that finds a match: one report row is written, with the score of
    the pair. *)
Example checkPlagiarism_match :
  let (result, w') := checkPlagiarism asciiLower (js "s1") (js "a1") classroom in
  (exists reports segments, result = Checked (Fin 53.04) reports segments) /\
  map row_similarity_score (plagiarism_reports w') = [Fin 53.04] /\
  events w' = [SelectSubmission (js "s1"); SelectOthers (js "a1") (js "s1");
               Compared (js "s2");
               Inserted (mkReportRow (js "s1") (js "s2") (Fin 53.04)
                           [mkSegment (js "The quick brown fox jumps over the lazy dog today in the park")
                              0 61 (js "s2")])].
Proof. vm_compute. repeat split. eexists. eexists. reflexivity. Qed.

(** * Further properties of the engine *)

(** ** The scorer *)

Lemma NoDup_same_length (l1 l2 : list jsstring) :
  NoDup l1 -> NoDup l2 -> (forall x, In x l1 <-> In x l2) -> length l1 = length l2.
Proof.
  intros H1 H2 H. apply Permutation_length. apply NoDup_Permutation; assumption.
Qed.

Lemma commonWords_In (text1 text2 w : jsstring) :
  In w (commonWords text1 text2) <-> isWordOf w text1 /\ isWordOf w text2.
Proof.
  unfold commonWords, isWordOf. rewrite newSet_In, filter_In, has_In, !newSet_In.
  reflexivity.
Qed.

Lemma allWords_In (text1 text2 w : jsstring) :
  In w (allWords text1 text2) <-> isWordOf w text1 \/ isWordOf w text2.
Proof.
  unfold allWords, isWordOf. rewrite newSet_In, in_app_iff, !newSet_In. reflexivity.
Qed.

Lemma allWords_pos (text1 text2 : jsstring) : (0 < length (allWords text1 text2))%nat.
Proof.
  destruct (allWords text1 text2) as [|x l] eqn:E; [|simpl; lia].
  exfalso. destruct (split isWhiteSpace text1) as [|w ws] eqn:Es.
  - revert Es. apply splitAux_nonempty.
  - assert (H : In w (allWords text1 text2)).
    { apply allWords_In. left. unfold isWordOf. rewrite Es. left; reflexivity. }
    rewrite E in H. exact H.
Qed.

Lemma common_le_all (text1 text2 : jsstring) :
  (length (commonWords text1 text2) <= length (allWords text1 text2))%nat.
Proof.
  apply NoDup_incl_length; [apply newSet_NoDup|].
  intros w Hw. apply allWords_In. apply commonWords_In in Hw. tauto.
Qed.

(** The value of the scorer: the percentage of common words among all
    words. *)
Lemma calculateSimilarity_value (text1 text2 : jsstring) :
  calculateSimilarity text1 text2
  = Fin ((Z.of_nat (length (commonWords text1 text2))
          # Z.to_pos (Z.of_nat (length (allWords text1 text2)))) * 100)%Q.
Proof.
  pose proof (allWords_pos text1 text2) as Hpos.
  unfold calculateSimilarity. fold (commonWords text1 text2). fold (allWords text1 text2).
  unfold size, div.
  destruct (Z.eqb_spec (Z.of_nat (length (allWords text1 text2))) 0) as [E|E]; [lia|].
  reflexivity.
Qed.

Lemma percent_zero (i u : nat) :
  (0 < u)%nat ->
  (((Z.of_nat i # Z.to_pos (Z.of_nat u)) * 100 == 0)%Q <-> i = 0%nat).
Proof.
  intros Hu. destruct u as [|m]; [lia|].
  unfold Qeq, Qmult; simpl. lia.
Qed.

Lemma percent_hundred (i u : nat) :
  (0 < u)%nat ->
  (((Z.of_nat i # Z.to_pos (Z.of_nat u)) * 100 == 100)%Q <-> i = u).
Proof.
  intros Hu. destruct u as [|m]; [lia|].
  unfold Qeq, Qmult; simpl. lia.
Qed.

(** X1: the score is symmetric in its two texts. *)
Theorem calculateSimilarity_symmetric (text1 text2 : jsstring) :
  numEq (calculateSimilarity text1 text2) (calculateSimilarity text2 text1).
Proof.
  rewrite !calculateSimilarity_value.
  assert (Ei : length (commonWords text1 text2) = length (commonWords text2 text1)).
  { apply NoDup_same_length; try apply newSet_NoDup.
    intros w. rewrite !commonWords_In. tauto. }
  assert (Eu : length (allWords text1 text2) = length (allWords text2 text1)).
  { apply NoDup_same_length; try apply newSet_NoDup.
    intros w. rewrite !allWords_In. tauto. }
  rewrite Ei, Eu. simpl. reflexivity.
Qed.

(** X2: the score depends on each text only through the set of its words:
    neither the order of the words nor how often each occurs matters. *)
Theorem calculateSimilarity_same_words (text1 text1' text2 : jsstring) :
  (forall w, isWordOf w text1 <-> isWordOf w text1') ->
  numEq (calculateSimilarity text1 text2) (calculateSimilarity text1' text2).
Proof.
  intros H. rewrite !calculateSimilarity_value.
  assert (Ei : length (commonWords text1 text2) = length (commonWords text1' text2)).
  { apply NoDup_same_length; try apply newSet_NoDup.
    intros w. rewrite !commonWords_In, H. tauto. }
  assert (Eu : length (allWords text1 text2) = length (allWords text1' text2)).
  { apply NoDup_same_length; try apply newSet_NoDup.
    intros w. rewrite !allWords_In, H. tauto. }
  rewrite Ei, Eu. simpl. reflexivity.
Qed.

Lemma calculateSimilarity_same_words_witness :
  (forall w, isWordOf w (js "the cat saw the dog") <-> isWordOf w (js "dog cat the saw")) /\
  numEq (calculateSimilarity (js "the cat saw the dog") (js "a cat"))
        (calculateSimilarity (js "dog cat the saw") (js "a cat")).
Proof.
  assert (H : forall w, isWordOf w (js "the cat saw the dog") <-> isWordOf w (js "dog cat the saw")).
  { intros w. unfold isWordOf. vm_compute. tauto. }
  split; [exact H|].
  exact (calculateSimilarity_same_words (js "the cat saw the dog") (js "dog cat the saw")
           (js "a cat") H).
Defined.

(** X3: the score is 0 exactly when the two texts have no word in common. *)
Theorem calculateSimilarity_zero_iff (text1 text2 : jsstring) :
  numEq (calculateSimilarity text1 text2) (Fin 0) <->
  forall w, ~ (isWordOf w text1 /\ isWordOf w text2).
Proof.
  rewrite calculateSimilarity_value. simpl.
  rewrite (percent_zero _ _ (allWords_pos text1 text2)). split.
  - intros E w Hw. apply commonWords_In in Hw.
    destruct (commonWords text1 text2); [exact Hw | discriminate E].
  - intros H. destruct (commonWords text1 text2) as [|w l] eqn:E; [reflexivity|].
    exfalso. apply (H w). apply commonWords_In. rewrite E. left; reflexivity.
Qed.

(** X4: the score is 100 exactly when the two texts have the same words. *)
Theorem calculateSimilarity_hundred_iff (text1 text2 : jsstring) :
  numEq (calculateSimilarity text1 text2) (Fin 100) <->
  forall w, isWordOf w text1 <-> isWordOf w text2.
Proof.
  rewrite calculateSimilarity_value. simpl.
  rewrite (percent_hundred _ _ (allWords_pos text1 text2)). split.
  - intros E.
    assert (Hall : forall w, In w (allWords text1 text2) -> In w (commonWords text1 text2)).
    { apply NoDup_length_incl; [apply newSet_NoDup | lia |].
      intros w Hw. apply allWords_In. apply commonWords_In in Hw. tauto. }
    intros w. split; intros Hw.
    + assert (In w (commonWords text1 text2)) by (apply Hall, allWords_In; auto).
      apply commonWords_In in H. tauto.
    + assert (In w (commonWords text1 text2)) by (apply Hall, allWords_In; auto).
      apply commonWords_In in H. tauto.
  - intros H. apply NoDup_same_length; try apply newSet_NoDup.
    intros w. rewrite commonWords_In, allWords_In, H. tauto.
Qed.

(** ** The segmenter and the matcher *)

Lemma SplitOn_sepfree (sep : char16 -> bool) (s : jsstring) (pieces : list jsstring) :
  SplitOn sep s pieces ->
  forall p, In p pieces -> Forall (fun c => sep c = false) p.
Proof.
  induction 1 as [p Hp | p r rest pieces Hp Hne Hr Hrest Hs IH]; intros q Hq.
  - destruct Hq as [<-|[]]. exact Hp.
  - destruct Hq as [<-|Hq]; [exact Hp | apply IH; exact Hq].
Qed.

Lemma trim_trim (s : jsstring) : trim (trim s) = trim s.
Proof.
  destruct (trim_spec s) as (a & b & _ & _ & _ & Hh & Hl).
  apply trim_fixed; assumption.
Qed.

(** X5: every sentence that the segmenter returns is longer than 20
    characters, holds none of '.', '!', '?', has no white space at either
    end, and occurs in the text as it stands. *)
Theorem splitIntoSentences_shape (t : jsstring) :
  Forall (fun s => 20 < len s /\
                   Forall (fun c => isSentenceEnd c = false) s /\
                   trim s = s /\
                   exists a b, t = a ++ s ++ b)
         (splitIntoSentences t).
Proof.
  apply Forall_forall. intros s Hs.
  destruct (sentence_occurs t s Hs) as [Hocc Hlen].
  split; [exact Hlen|]. split; [|split; [|exact Hocc]].
  - unfold splitIntoSentences in Hs. apply filter_In in Hs. destruct Hs as [Hs _].
    apply in_map_iff in Hs. destruct Hs as (p & <- & Hp).
    pose proof (SplitOn_sepfree _ _ _ (split_SplitOn isSentenceEnd t) p Hp) as Hfree.
    destruct (trim_infix p) as (a & b & E). rewrite E in Hfree.
    apply Forall_app in Hfree. destruct Hfree as [_ Hfree].
    apply Forall_app in Hfree. tauto.
  - unfold splitIntoSentences in Hs. apply filter_In in Hs. destruct Hs as [Hs _].
    apply in_map_iff in Hs. destruct Hs as (p & <- & _). apply trim_trim.
Qed.

Lemma calculateSimilarity_refl (t : jsstring) :
  numEq (calculateSimilarity t t) (Fin 100).
Proof.
  rewrite calculateSimilarity_value. simpl.
  apply (percent_hundred _ _ (allWords_pos t t)).
  apply NoDup_same_length; try apply newSet_NoDup.
  intros w. rewrite commonWords_In, allWords_In. tauto.
Qed.

Lemma geb_hundred (x : number) (q : Q) :
  numEq x (Fin 100) -> (q <= 100)%Q -> geb x (Fin q) = true.
Proof.
  destruct x as [a| | |]; simpl; try tauto.
  intros E Hq. apply Qle_bool_iff. rewrite E. exact Hq.
Qed.

Lemma geb_lower (x : number) (q1 q2 : Q) :
  (q1 <= q2)%Q -> geb x (Fin q2) = true -> geb x (Fin q1) = true.
Proof.
  destruct x as [a| | |]; simpl; try tauto.
  intros Hq H. apply Qle_bool_iff in H. apply Qle_bool_iff.
  apply Qle_trans with q2; assumption.
Qed.

Lemma flat_map_nil {A B : Type} (f : A -> list B) (l : list A) :
  (forall x, In x l -> f x = []) -> flat_map f l = [].
Proof.
  induction l as [|x l IH]; intros H; simpl; [reflexivity|].
  rewrite (H x (or_introl eq_refl)), IH; [reflexivity|].
  intros y Hy. apply H. right; exact Hy.
Qed.

Lemma short_text_no_sentence (t : jsstring) :
  len t <= 20 -> splitIntoSentences t = [].
Proof.
  intros Hlen. destruct (splitIntoSentences t) as [|s l] eqn:E; [reflexivity|].
  exfalso. destruct (sentence_occurs t s) as [(a & b & Ht) Hs].
  - rewrite E. left; reflexivity.
  - rewrite Ht, !len_app in Hlen.
    pose proof (len_nonneg a). pose proof (len_nonneg b). lia.
Qed.

Section MatcherFacts.

Variable toLowerCase : jsstring -> jsstring.

(** X6: a text compared with itself matches in every one of its sentences,
    at every threshold up to 100: each sentence is reported, at its first
    occurrence. *)
Theorem findMatchingSegments_self (t comparedSubmissionId : jsstring) (q : Q) :
  (q <= 100)%Q ->
  Forall (fun s => In (mkSegment s (indexOf t s) (indexOf t s + len s) comparedSubmissionId)
                      (findMatchingSegments toLowerCase t t comparedSubmissionId (Fin q)))
         (splitIntoSentences t).
Proof.
  intros Hq. apply Forall_forall. intros s Hs.
  unfold findMatchingSegments. apply in_flat_map. exists s. split; [exact Hs|].
  apply in_flat_map. exists s. split; [exact Hs|].
  unfold matchPair.
  rewrite (geb_hundred _ q (calculateSimilarity_refl (normalizeText toLowerCase s)) Hq).
  destruct (sentence_found t s Hs) as (Hocc & _ & _).
  apply occursAt_bounds in Hocc.
  destruct (Z.eqb_spec (indexOf t s) (-1)) as [E|E]; [lia|].
  left; reflexivity.
Qed.

(** X7: raising the threshold only removes matches. *)
Theorem findMatchingSegments_threshold_monotone
    (originalText comparedText comparedSubmissionId : jsstring) (q1 q2 : Q) :
  (q1 <= q2)%Q ->
  incl (findMatchingSegments toLowerCase originalText comparedText comparedSubmissionId (Fin q2))
       (findMatchingSegments toLowerCase originalText comparedText comparedSubmissionId (Fin q1)).
Proof.
  intros Hq m. unfold findMatchingSegments. rewrite !in_flat_map.
  intros (s & Hs & Hm). exists s. split; [exact Hs|].
  rewrite in_flat_map in *. destruct Hm as (c & Hc & Hm). exists c. split; [exact Hc|].
  unfold matchPair in *.
  destruct (geb _ (Fin q2)) eqn:E; [|destruct Hm].
  rewrite (geb_lower _ q1 q2 Hq E). exact Hm.
Qed.

(** X8: a text of at most 20 characters has no sentence, so it matches
    nothing, on either side of the comparison. *)
Theorem findMatchingSegments_short_text
    (originalText comparedText comparedSubmissionId : jsstring) (threshold : number) :
  len originalText <= 20 \/ len comparedText <= 20 ->
  findMatchingSegments toLowerCase originalText comparedText comparedSubmissionId threshold
  = [].
Proof.
  intros [H|H]; unfold findMatchingSegments.
  - rewrite (short_text_no_sentence _ H). reflexivity.
  - rewrite (short_text_no_sentence comparedText H).
    apply flat_map_nil. intros; reflexivity.
Qed.

End MatcherFacts.

Lemma findMatchingSegments_self_witness :
  (70 <= 100)%Q /\
  Forall (fun s => In (mkSegment s (indexOf (js "Intro. We went to the market today.") s)
                         (indexOf (js "Intro. We went to the market today.") s + len s)
                         (js "peer"))
                      (findMatchingSegments asciiLower
                         (js "Intro. We went to the market today.")
                         (js "Intro. We went to the market today.") (js "peer") (Fin 70)))
         (splitIntoSentences (js "Intro. We went to the market today.")).
Proof.
  assert (H : (70 <= 100)%Q) by (unfold Qle; simpl; lia).
  split; [exact H|].
  exact (findMatchingSegments_self asciiLower (js "Intro. We went to the market today.")
           (js "peer") 70 H).
Defined.

Lemma findMatchingSegments_threshold_monotone_witness :
  (50 <= 70)%Q /\
  incl (findMatchingSegments asciiLower (js "We went to the market today.")
          (js "Today we went to the big market.") (js "peer") (Fin 70))
       (findMatchingSegments asciiLower (js "We went to the market today.")
          (js "Today we went to the big market.") (js "peer") (Fin 50)).
Proof.
  assert (H : (50 <= 70)%Q) by (unfold Qle; simpl; lia).
  split; [exact H|].
  exact (findMatchingSegments_threshold_monotone asciiLower
           (js "We went to the market today.") (js "Today we went to the big market.")
           (js "peer") 50 70 H).
Defined.

Lemma findMatchingSegments_short_text_witness :
  (len (js "Yes. No. Maybe so.") <= 20 \/
   len (js "The quick brown fox jumps over the lazy dog.") <= 20) /\
  findMatchingSegments asciiLower (js "Yes. No. Maybe so.")
    (js "The quick brown fox jumps over the lazy dog.") (js "peer") defaultThreshold
  = [].
Proof.
  assert (H : len (js "Yes. No. Maybe so.") <= 20 \/
              len (js "The quick brown fox jumps over the lazy dog.") <= 20)
    by (left; vm_compute; discriminate).
  split; [exact H|].
  exact (findMatchingSegments_short_text asciiLower (js "Yes. No. Maybe so.")
           (js "The quick brown fox jumps over the lazy dog.") (js "peer")
           defaultThreshold H).
Defined.

(** ** The merger *)

Lemma FOP_map_inv {A B : Type} (f : A -> B) (R : B -> B -> Prop) (l : list A) :
  ForallOrdPairs R (map f l) -> ForallOrdPairs (fun a b => R (f a) (f b)) l.
Proof.
  induction l as [|x l IH]; simpl; intros H; [constructor|].
  apply FOP_cons_inv in H. destruct H as [Hx Hl].
  constructor; [|apply IH; exact Hl].
  apply Forall_forall. intros y Hy. apply Hx. apply in_map; exact Hy.
Qed.

Lemma last_In (l : list ref) (d : ref) : l <> [] -> In (last l d) l.
Proof.
  intros H. destruct (exists_last H) as (l' & x & ->).
  rewrite last_last. apply in_or_app; right; left; reflexivity.
Qed.

Lemma fold_mergeStep_frame (rest : list ref) :
  forall (h : Heap) (merged : list ref),
    merged <> [] ->
    incl merged (snd (fold_left mergeStep rest (h, merged))) /\
    forall r, ~ In r (snd (fold_left mergeStep rest (h, merged))) ->
              fst (fold_left mergeStep rest (h, merged)) r = h r.
Proof.
  induction rest as [|c rest IH]; intros h merged Hne.
  - simpl. split; [apply incl_refl | reflexivity].
  - cbn [fold_left]. unfold mergeStep at 2 4 6.
    pose proof (last_In merged c Hne) as Hlast.
    destruct (startIndex (h c) <=? endIndex (h (last merged c))).
    + match goal with |- context [fold_left mergeStep rest (?h2, merged)] =>
        destruct (IH h2 merged Hne) as [Hincl Hframe] end.
      split; [exact Hincl|]. intros r Hr. rewrite (Hframe r Hr).
      assert (Hrl : r <> last merged c) by (intros ->; apply Hr, Hincl, Hlast).
      rewrite !store_other by exact Hrl. reflexivity.
    + destruct (IH h (merged ++ [c])) as [Hincl Hframe].
      { intros E. apply app_eq_nil in E. destruct E as [_ E]; discriminate E. }
      split; [|exact Hframe].
      intros r Hr. apply Hincl. apply in_or_app; left; exact Hr.
Qed.

(** X10: the merger writes only to the objects it returns: every other
    object of the store is as before; and of no object does it change the
    [startIndex] or the [matchedSubmissionId], or lower the [endIndex]. *)
Theorem mergeOverlappingSegments_frame (segments : list ref) (h : Heap) :
  let (merged, h') := mergeOverlappingSegments segments h in
  (forall r, ~ In r merged -> h' r = h r) /\
  (forall r, startIndex (h' r) = startIndex (h r) /\
             matchedSubmissionId (h' r) = matchedSubmissionId (h r) /\
             endIndex (h r) <= endIndex (h' r)).
Proof.
  destruct (sortBy (startsBefore h) segments) as [|first rest] eqn:E.
  - unfold mergeOverlappingSegments. rewrite E.
    split; [intros; reflexivity|]. intros r. split; [reflexivity|]. split; [reflexivity | lia].
  - pose proof (merge_run segments h first rest E) as (merged & h' & Em & HI).
    rewrite Em. split.
    + unfold mergeOverlappingSegments in Em. rewrite E in Em.
      assert (Hne : [first] <> []) by discriminate.
      destruct (fold_mergeStep_frame rest h [first] Hne) as [_ Hframe].
      destruct (fold_left mergeStep rest (h, [first])) as [h2 merged2].
      injection Em as <- <-. exact Hframe.
    + intros r. destruct HI as [Hframe Hgrow _ _ _ _ _ _].
      destruct (Hframe r) as [Hs Hi]. split; [exact Hs|]. split; [exact Hi | apply Hgrow].
Qed.

Lemma concat_length_ge (groups : list (list ref)) :
  Forall (fun g => g <> []) groups -> (length groups <= length (concat groups))%nat.
Proof.
  induction 1 as [|g groups Hg Hgs IH]; simpl; [lia|].
  rewrite length_app. destruct g; [congruence|]. simpl. lia.
Qed.

(** X11: every span that the merger returns is one of the objects it was
    given; it returns no more spans than it was given segments, and at
    least one when it was given any. *)
Theorem mergeOverlappingSegments_spans (segments : list ref) (h : Heap) :
  let (merged, h') := mergeOverlappingSegments segments h in
  incl merged segments /\
  (length merged <= length segments)%nat /\
  (segments <> [] -> merged <> []).
Proof.
  destruct (sortBy (startsBefore h) segments) as [|first rest] eqn:E.
  - unfold mergeOverlappingSegments. rewrite E. apply sorted_nil in E. subst segments.
    split; [apply incl_refl|]. split; [simpl; lia | congruence].
  - pose proof (merge_run segments h first rest E) as (merged & h' & -> & HI).
    destruct HI as [_ _ _ Hgroups Hconcat _ _ Hne].
    pose proof (sorted_perm h segments) as Hperm. rewrite E in Hperm.
    split; [|split; [|intros _; exact Hne]].
    + intros m Hm. destruct (Forall2_in_l _ _ _ m Hgroups Hm) as (g & Hg & Hok).
      apply (Permutation_in _ (Permutation_sym Hperm)). rewrite <- Hconcat.
      apply in_concat. exists g. split; [exact Hg | apply (GroupOk_head_in _ _ _ _ Hok)].
    + rewrite (Permutation_length Hperm), <- Hconcat.
      rewrite (Forall2_length Hgroups). apply concat_length_ge.
      apply Forall_forall. intros g Hg.
      destruct (Forall2_in_r _ _ _ g Hgroups Hg) as (m & _ & (tl & ->) & _). discriminate.
Qed.

Lemma sortBy_sorted_id (h : Heap) (l : list ref) :
  ForallOrdPairs (fun a b => startIndex (h a) <= startIndex (h b)) l ->
  sortBy (startsBefore h) l = l.
Proof.
  induction 1 as [|x l Hx Hl IH]; simpl; [reflexivity|].
  rewrite IH. destruct l as [|y l']; [reflexivity|]. simpl.
  inversion Hx as [|? ? Hxy _]; subst. unfold startsBefore.
  destruct (Z.ltb_spec (startIndex (h y) - startIndex (h x)) 0); [lia | reflexivity].
Qed.

Lemma fold_mergeStep_apart (h : Heap) (rest : list ref) :
  forall merged : list ref,
    merged <> [] ->
    ForallOrdPairs (fun a b => endIndex (h a) < startIndex (h b)) (merged ++ rest) ->
    fold_left mergeStep rest (h, merged) = (h, merged ++ rest).
Proof.
  induction rest as [|c rest IH]; intros merged Hne Hgap.
  - simpl. rewrite app_nil_r. reflexivity.
  - cbn [fold_left]. unfold mergeStep at 2.
    destruct (FOP_app_l _ _ _ Hgap) as (_ & _ & H12).
    specialize (H12 (last merged c) c (last_In merged c Hne) (or_introl eq_refl)).
    destruct (Z.leb_spec (startIndex (h c)) (endIndex (h (last merged c)))); [lia|].
    rewrite IH.
    + rewrite <- app_assoc. reflexivity.
    + intros E. apply app_eq_nil in E. destruct E as [_ E]; discriminate E.
    + rewrite <- app_assoc. exact Hgap.
Qed.

(** Spans that are sorted and apart are left as they are. *)
Lemma mergeValues_fixed (l : list MatchedSegment) :
  StronglySorted byStartIndex l ->
  ForallOrdPairs (fun a b => endIndex a < startIndex b) l ->
  mergeValues l = l.
Proof.
  intros Hs Hg. unfold mergeValues, mergeOverlappingSegments.
  pose proof (deref_heapOf_from l []) as E. simpl in E.
  set (h := heapOf l) in *. set (refs := seq 0 (length l)) in *.
  apply FOP_sorted in Hs. rewrite <- E in Hs, Hg. unfold deref in Hs, Hg.
  apply FOP_map_inv in Hs. apply FOP_map_inv in Hg.
  rewrite (sortBy_sorted_id h refs Hs).
  destruct refs as [|first rest] eqn:Er; [exact E|].
  assert (F : fold_left mergeStep rest (h, [first]) = (h, [first] ++ rest))
    by (apply fold_mergeStep_apart; [discriminate | exact Hg]).
  match goal with
  | |- context [fold_left mergeStep rest ?st] =>
      replace (fold_left mergeStep rest st) with (h, [first] ++ rest)
        by (symmetry; exact F)
  end.
  exact E.
Qed.

(** X9: merging is idempotent: what the merger returns, it returns
    unchanged when given it again. *)
Theorem mergeValues_idempotent (segments : list MatchedSegment) :
  mergeValues (mergeValues segments) = mergeValues segments.
Proof.
  destruct (mergeValues_sound segments) as (Hs & Hg & _).
  apply mergeValues_fixed; assumption.
Qed.

(** ** The orchestrator, beyond its error path *)

Lemma insertBy_perm_any {A : Type} (lt : A -> A -> bool) (x : A) (l : list A) :
  Permutation (x :: l) (insertBy lt x l).
Proof.
  induction l as [|y l IH]; simpl; [reflexivity|].
  destruct (lt y x); [|reflexivity].
  rewrite perm_swap. constructor. exact IH.
Qed.

Lemma sortBy_perm_any {A : Type} (lt : A -> A -> bool) (l : list A) :
  Permutation l (sortBy lt l).
Proof.
  induction l as [|x l IH]; simpl; [constructor|].
  rewrite <- insertBy_perm_any. constructor. exact IH.
Qed.

Definition scoreFinite (rp : Report) : Prop := exists q, similarity_score rp = Fin q.

Definition scoreNotBelow (a b : Report) : Prop :=
  geb (similarity_score a) (similarity_score b) = true.

Lemma insertBy_sorted_desc (x : Report) (l : list Report) :
  scoreFinite x -> Forall scoreFinite l ->
  ForallOrdPairs scoreNotBelow l ->
  ForallOrdPairs scoreNotBelow
    (insertBy (fun a b => ltb (similarity_score b) (similarity_score a)) x l).
Proof.
  intros [qx Hx] Hfin Hs. induction Hs as [|y l Hy Hl IH]; simpl; [repeat constructor|].
  inversion Hfin as [|? ? [qy Hqy] Hfin']; subst.
  rewrite Hx, Hqy. simpl.
  destruct (Qle_bool qy qx) eqn:E; simpl.
  - constructor; [|constructor; auto].
    constructor; [unfold scoreNotBelow; rewrite Hx, Hqy; exact E|].
    rewrite Forall_forall in *. intros z Hz. specialize (Hy z Hz).
    destruct (Hfin' z Hz) as [qz Hqz].
    unfold scoreNotBelow in *. rewrite Hx, Hqy, Hqz in *. simpl in *.
    apply Qle_bool_iff in Hy, E. apply Qle_bool_iff.
    apply Qle_trans with qy; assumption.
  - constructor; [|apply IH; exact Hfin'].
    rewrite Forall_forall in *. intros z Hz.
    apply (Permutation_in _ (Permutation_sym (insertBy_perm_any _ x l))) in Hz.
    destruct Hz as [<-|Hz]; [|auto].
    unfold scoreNotBelow. rewrite Hx, Hqy. simpl. apply Qle_bool_iff.
    destruct (Qlt_le_dec qx qy) as [Hlt|Hle]; [apply Qlt_le_weak; exact Hlt|].
    apply Qle_bool_iff in Hle. congruence.
Qed.

Lemma sortBy_sorted_desc (l : list Report) :
  Forall scoreFinite l ->
  ForallOrdPairs scoreNotBelow
    (sortBy (fun a b => ltb (similarity_score b) (similarity_score a)) l).
Proof.
  induction 1 as [|x l Hx Hl IH]; simpl; [constructor|].
  apply insertBy_sorted_desc; [exact Hx | | exact IH].
  apply Forall_forall. intros z Hz.
  apply (Permutation_in _ (Permutation_sym (sortBy_perm_any _ l))) in Hz.
  rewrite Forall_forall in Hl. auto.
Qed.

Lemma filter_none {A : Type} (f : A -> bool) (l : list A) :
  (forall x, In x l -> f x = false) -> filter f l = [].
Proof.
  induction l as [|x l IH]; intros H; simpl; [reflexivity|].
  rewrite (H x (or_introl eq_refl)). apply IH. intros y Hy. apply H. right; exact Hy.
Qed.

Lemma filter_id_unique (l : list Submission) (s : Submission) :
  NoDup (map sub_id l) -> In s l ->
  filter (fun x => eqb (sub_id x) (sub_id s)) l = [s].
Proof.
  induction l as [|x l IH]; intros Hnd Hin; [destruct Hin|].
  simpl in Hnd. apply NoDup_cons_iff in Hnd. destruct Hnd as [Hx Hnd]. simpl.
  destruct Hin as [->|Hin].
  - rewrite (proj2 (eqb_eq _ _) eq_refl). f_equal. apply filter_none.
    intros y Hy. destruct (eqb (sub_id y) (sub_id s)) eqn:E; [|reflexivity].
    apply eqb_eq in E. exfalso. apply Hx. rewrite <- E. apply in_map; exact Hy.
  - destruct (eqb (sub_id x) (sub_id s)) eqn:E.
    + apply eqb_eq in E. exfalso. apply Hx. rewrite E. apply in_map; exact Hin.
    + apply IH; assumption.
Qed.

(** The characters of spans that lie apart inside a text are at most the
    text. *)
Lemma totalChars_bound (h : Heap) (L : Z) (l : list ref) :
  forall lo acc : Z,
    ForallOrdPairs (fun a b => endIndex (h a) < startIndex (h b)) l ->
    Forall (fun m => lo <= startIndex (h m) /\ startIndex (h m) < endIndex (h m) /\
                     endIndex (h m) <= L) l ->
    lo <= L ->
    acc <= fold_left (fun sum m => sum + (endIndex (h m) - startIndex (h m))) l acc
        <= acc + (L - lo).
Proof.
  induction l as [|m l IH]; intros lo acc Hgap Hall Hlo; simpl; [lia|].
  apply FOP_cons_inv in Hgap. destruct Hgap as [Hm Hgap].
  inversion Hall as [|? ? (H1 & H2 & H3) Hall']; subst.
  assert (Hnext : Forall (fun x => endIndex (h m) <= startIndex (h x) /\
                                   startIndex (h x) < endIndex (h x) /\
                                   endIndex (h x) <= L) l).
  { rewrite Forall_forall in *. intros x Hx. specialize (Hm x Hx).
    destruct (Hall' x Hx) as (_ & ? & ?). lia. }
  specialize (IH (endIndex (h m)) (acc + (endIndex (h m) - startIndex (h m)))
                 Hgap Hnext H3).
  lia.
Qed.

Lemma percent_rounded_range (total : Z) (p : positive) :
  0 <= total <= Z.pos p ->
  (0 <= inject_Z (Qfloor ((total # p) * 100 * 100 + (1 # 2))) * (1 # 100) <= 100)%Q.
Proof.
  intros Ht.
  assert (H0 : 0 <= Qfloor ((total # p) * 100 * 100 + (1 # 2))).
  { change 0 with (Qfloor 0). apply Qfloor_resp_le.
    unfold Qle, Qmult, Qplus; simpl. nia. }
  assert (H1 : Qfloor ((total # p) * 100 * 100 + (1 # 2)) <= 10000).
  { change 10000 with (Qfloor (10000 + (1 # 2))). apply Qfloor_resp_le.
    unfold Qle, Qmult, Qplus; simpl. nia. }
  set (z := Qfloor ((total # p) * 100 * 100 + (1 # 2))) in *.
  unfold Qle, Qmult, inject_Z; simpl. lia.
Qed.

Section OrchestratorFacts.

Variable toLowerCase : jsstring -> jsstring.

(** One round of the loop over the other submissions. *)
Lemma compareAll_cons (submissionId currentContent : jsstring) (o : Submission)
    (rest : list Submission) (acc : list ref * list Report) (w : World) :
  compareAll toLowerCase submissionId currentContent (o :: rest) acc w
  = match truthy (sub_content o) with
    | None => compareAll toLowerCase submissionId currentContent rest acc w
    | Some otherContent =>
        let vs := findMatchingSegments toLowerCase currentContent otherContent
                    (sub_id o) defaultThreshold in
        let w1 := afterCompare w (sub_id o) vs in
        let matches := seq (nextRef w) (length vs) in
        if (0 <? length matches)%nat then
          compareAll toLowerCase submissionId currentContent rest
            (fst acc ++ matches,
             snd acc ++ [mkReport (sub_id o) (percentOf (heap w1) matches currentContent)
                           matches])
            (afterInsert w1
               (mkReportRow submissionId (sub_id o)
                  (percentOf (heap w1) matches currentContent)
                  (deref (heap w1) matches)))
        else compareAll toLowerCase submissionId currentContent rest acc w1
    end.
Proof.
  cbn [compareAll]. destruct (truthy (sub_content o)) as [otherContent|]; [|reflexivity].
  unfold bind, emit, allocate, readHeap, insertReport. cbn [fst snd].
  cbv zeta. rewrite !length_seq.
  destruct (0 <? length (findMatchingSegments _ _ _ _ _))%nat; reflexivity.
Qed.

Lemma truthy_Some (c : option jsstring) (x : jsstring) :
  truthy c = Some x -> c = Some x /\ x <> [].
Proof.
  destruct c as [[|a l]|]; simpl; try discriminate.
  intros E; injection E as <-. split; [reflexivity | discriminate].
Qed.

Lemma percentOf_fin (h : Heap) (segments : list ref) (currentContent : jsstring) :
  currentContent <> [] ->
  percentOf h segments currentContent
  = Fin (inject_Z (Qfloor ((totalChars h segments # Z.to_pos (len currentContent))
                           * 100 * 100 + (1 # 2))) * (1 # 100))%Q.
Proof.
  intros Hne. unfold percentOf, round2, div.
  destruct (Z.eqb_spec (len currentContent) 0) as [E|E]; [|reflexivity].
  destruct currentContent; [congruence | discriminate E].
Qed.

Lemma othersOf_peer (w : World) (assignmentId submissionId : jsstring) (o : Submission) :
  In o (othersOf w assignmentId submissionId) ->
  In o (submissions w) /\ sub_assignment_id o = assignmentId /\
  sub_id o <> submissionId /\ sub_status o = submitted.
Proof.
  unfold othersOf. rewrite filter_In, !andb_true_iff, negb_true_iff, eqb_eq.
  intros (Hin & (Ha & Hid) & Hst). repeat split; auto.
  - intros E. apply eqb_eq in E. congruence.
  - destruct (sub_status o); try discriminate. reflexivity.
Qed.

(** What the loop over the other submissions does to the store, and which
    reports it collects. *)
Lemma compareAll_effects (w0 : World) (assignmentId submissionId currentContent : jsstring)
    (others : list Submission) :
  currentContent <> [] ->
  (forall o, In o others ->
     In o (submissions w0) /\ sub_assignment_id o = assignmentId /\
     sub_id o <> submissionId /\ sub_status o = submitted) ->
  forall (acc : list ref * list Report) (w : World),
    let r := compareAll toLowerCase submissionId currentContent others acc w in
    submissions (snd r) = submissions w /\
    exists trace,
      events (snd r) = events w ++ trace /\
      plagiarism_reports (snd r) = plagiarism_reports w ++ insertedRows trace /\
      Forall (eventAllowed w0 assignmentId submissionId) trace /\
      exists newReports,
        snd (fst r) = snd acc ++ newReports /\
        map reportKey newReports = map rowKey (insertedRows trace) /\
        Forall (fun rp => exists q, similarity_score rp = Fin q) newReports.
Proof.
  intros Hne. induction others as [|o rest IH]; intros Hothers acc w.
  - simpl. split; [reflexivity|]. exists []. rewrite !app_nil_r.
    repeat split; auto. exists []. rewrite app_nil_r. repeat split; auto.
  - assert (Hrest : forall o', In o' rest ->
              In o' (submissions w0) /\ sub_assignment_id o' = assignmentId /\
              sub_id o' <> submissionId /\ sub_status o' = submitted)
      by (intros o' Ho'; apply Hothers; right; exact Ho').
    specialize (IH Hrest).
    destruct (Hothers o (or_introl eq_refl)) as (Hin & Ha & Hid & Hst).
    cbv zeta. rewrite compareAll_cons.
    destruct (truthy (sub_content o)) as [otherContent|] eqn:Et; [|apply IH].
    apply truthy_Some in Et. destruct Et as [Ec Hoc].
    assert (Hpeer : exists s, In s (submissions w0) /\ sub_id s = sub_id o /\
                              isPeer assignmentId submissionId s).
    { exists o. repeat split; auto. exists otherContent; auto. }
    cbv zeta.
    set (vs := findMatchingSegments toLowerCase currentContent otherContent (sub_id o)
                 defaultThreshold).
    set (w1 := afterCompare w (sub_id o) vs).
    set (matches := seq (nextRef w) (length vs)).
    destruct (0 <? length matches)%nat eqn:Elen.
    + set (row := mkReportRow submissionId (sub_id o)
                    (percentOf (heap w1) matches currentContent) (deref (heap w1) matches)).
      set (rp := mkReport (sub_id o) (percentOf (heap w1) matches currentContent) matches).
      destruct (IH (fst acc ++ matches, snd acc ++ [rp]) (afterInsert w1 row))
        as (Hsub & trace & Hev & Hrows & Hall & newReports & Hrep & Hkeys & Hfin).
      split; [exact Hsub|].
      exists (Compared (sub_id o) :: Inserted row :: trace).
      split; [rewrite Hev; simpl; rewrite <- !app_assoc; reflexivity|].
      split; [rewrite Hrows; simpl; rewrite <- app_assoc; reflexivity|].
      split.
      * constructor; [exact Hpeer|]. constructor; [|exact Hall].
        simpl. split; [reflexivity|]. split; [|exact Hpeer].
        apply Nat.ltb_lt in Elen. unfold deref.
        destruct matches; [simpl in Elen; lia | discriminate].
      * exists (rp :: newReports).
        split; [rewrite Hrep; simpl; rewrite <- app_assoc; reflexivity|].
        split; [simpl; f_equal; exact Hkeys|].
        constructor; [|exact Hfin]. eexists. simpl. apply percentOf_fin; exact Hne.
    + destruct (IH acc w1) as (Hsub & trace & Hev & Hrows & Hall & newReports & Hrep & Hkeys & Hfin).
      split; [exact Hsub|].
      exists (Compared (sub_id o) :: trace).
      split; [rewrite Hev; simpl; rewrite <- app_assoc; reflexivity|].
      split; [rewrite Hrows; reflexivity|].
      split; [constructor; [exact Hpeer | exact Hall]|].
      exists newReports. auto.
Qed.

(** The three ways a check can go. *)
Lemma checkPlagiarism_cases (submissionId assignmentId : jsstring) (w : World) :
  checkPlagiarism toLowerCase submissionId assignmentId w
  = match checkedContent w submissionId with
    | None => (CheckError errorMessage, afterEvent w (SelectSubmission submissionId))
    | Some currentContent =>
        let w2 := afterEvent (afterEvent w (SelectSubmission submissionId))
                    (SelectOthers assignmentId submissionId) in
        match othersOf w assignmentId submissionId with
        | [] => (NothingToCompare (Fin 0) [] noOthersMessage, w2)
        | o :: rest =>
            let r := compareAll toLowerCase submissionId currentContent (o :: rest)
                       ([], []) w2 in
            let m := mergeOverlappingSegments (fst (fst r)) (heap (snd r)) in
            (Checked (percentOf (snd m) (fst m) currentContent)
               (sortBy (fun a b => ltb (similarity_score b) (similarity_score a))
                       (snd (fst r)))
               (fst m),
             mkWorld (submissions (snd r)) (plagiarism_reports (snd r)) (snd m)
                     (nextRef (snd r)) (events (snd r)))
        end
    end.
Proof.
  unfold checkPlagiarism, bind. rewrite selectSubmission_run. unfold checkedContent.
  set (found := filter (fun s => eqb (sub_id s) submissionId) (submissions w)).
  assert (E : match match found with [s] => Some s | _ => None end with
              | Some s => truthy (sub_content s)
              | None => None
              end
              = match found with [s] => truthy (sub_content s) | _ => None end).
  { destruct found as [|a [|b l]]; reflexivity. }
  rewrite E. clear E.
  destruct (match found with [s] => truthy (sub_content s) | _ => None end)
    as [currentContent|]; [|reflexivity].
  unfold selectOthers, emit, othersOf, afterEvent.
  cbn [submissions plagiarism_reports heap nextRef events].
  match goal with
  | |- context [filter ?f (submissions w)] => destruct (filter f (submissions w)) as [|o rest]
  end; [reflexivity|].
  cbv zeta. unfold runMerge, readHeap, ret.
  match goal with
  | |- context [compareAll toLowerCase submissionId currentContent (o :: rest) ?a ?w2] =>
      destruct (compareAll toLowerCase submissionId currentContent (o :: rest) a w2)
        as [[all reports] w3]
  end.
  cbn [fst snd heap].
  destruct (mergeOverlappingSegments all (heap w3)) as [merged h']. reflexivity.
Qed.

Lemma checkedContent_Some (w : World) (submissionId currentContent : jsstring) :
  checkedContent w submissionId = Some currentContent -> currentContent <> [].
Proof.
  unfold checkedContent.
  destruct (filter _ (submissions w)) as [|s [|s' l]]; try discriminate.
  intros E. apply truthy_Some in E. tauto.
Qed.

(** X12: when the checked submission has content and the assignment has no
    other submitted submission, the check answers with an overall similarity
    of 0, no reports and the note that there is nothing to compare against;
    it makes its two queries and nothing else. *)
Theorem checkPlagiarism_no_others
    (submissionId assignmentId : jsstring) (w : World) (s : Submission)
    (content : jsstring) :
  NoDup (map sub_id (submissions w)) ->
  In s (submissions w) -> sub_id s = submissionId ->
  sub_content s = Some content -> content <> [] ->
  (forall o, In o (submissions w) -> sub_assignment_id o = assignmentId ->
             sub_status o = submitted -> sub_id o = submissionId) ->
  let (result, w') := checkPlagiarism toLowerCase submissionId assignmentId w in
  result = NothingToCompare (Fin 0) [] noOthersMessage /\
  plagiarism_reports w' = plagiarism_reports w /\
  submissions w' = submissions w /\
  heap w' = heap w /\
  events w' = events w ++ [SelectSubmission submissionId;
                           SelectOthers assignmentId submissionId].
Proof.
  intros Hnd Hin Hid Hc Hne Hnone. rewrite checkPlagiarism_cases.
  assert (E1 : checkedContent w submissionId = Some content).
  { unfold checkedContent. rewrite <- Hid, (filter_id_unique _ s Hnd Hin), Hc.
    destruct content; [congruence | reflexivity]. }
  assert (E2 : othersOf w assignmentId submissionId = []).
  { destruct (othersOf w assignmentId submissionId) as [|o l] eqn:E; [reflexivity|].
    exfalso. destruct (othersOf_peer w assignmentId submissionId o) as (Ho & Ha & Hi & Hs).
    - rewrite E. left; reflexivity.
    - apply Hi. apply Hnone; assumption. }
  rewrite E1, E2. cbv zeta. unfold afterEvent; simpl.
  rewrite <- app_assoc. auto.
Qed.

(** X13: whatever the store, a check leaves the submissions as they are
    and the stored reports in place; what it does is its queries, then
    comparisons and inserts, and every comparison is with another, submitted
    submission of the same assignment that has content, every insert is a
    report on the checked submission against such a peer with at least one
    matched segment; rows are only ever appended, each by one of these
    inserts. *)
Theorem checkPlagiarism_effects (submissionId assignmentId : jsstring) (w : World) :
  let (result, w') := checkPlagiarism toLowerCase submissionId assignmentId w in
  submissions w' = submissions w /\
  exists trace,
    events w' = events w ++ trace /\
    Forall (eventAllowed w assignmentId submissionId) trace /\
    exists new,
      plagiarism_reports w' = plagiarism_reports w ++ new /\
      incl new (insertedRows trace).
Proof.
  rewrite checkPlagiarism_cases.
  destruct (checkedContent w submissionId) as [currentContent|] eqn:Ec.
  - apply checkedContent_Some in Ec. cbv zeta.
    destruct (othersOf w assignmentId submissionId) as [|o rest] eqn:Eo.
    + split; [reflexivity|].
      exists [SelectSubmission submissionId; SelectOthers assignmentId submissionId].
      split; [unfold afterEvent; simpl; rewrite <- app_assoc; reflexivity|].
      split; [repeat constructor|].
      exists []. split; [simpl; rewrite app_nil_r; reflexivity | intros x []].
    + destruct (compareAll_effects w assignmentId submissionId currentContent (o :: rest) Ec)
        with (acc := ([] : list ref, [] : list Report))
             (w := afterEvent (afterEvent w (SelectSubmission submissionId))
                     (SelectOthers assignmentId submissionId))
        as (Hsub & trace & Hev & Hrows & Hall & _).
      { intros o' Ho'. apply othersOf_peer. rewrite Eo. exact Ho'. }
      cbn [fst snd submissions plagiarism_reports events].
      split; [exact Hsub|].
      exists (SelectSubmission submissionId :: SelectOthers assignmentId submissionId :: trace).
      split; [rewrite Hev; unfold afterEvent; simpl; rewrite <- !app_assoc; reflexivity|].
      split; [constructor; [reflexivity|]; constructor; [split; reflexivity | exact Hall]|].
      exists (insertedRows trace). split; [exact Hrows | apply incl_refl].
  - split; [reflexivity|].
    exists [SelectSubmission submissionId]. split; [reflexivity|].
    split; [repeat constructor|].
    exists []. split; [simpl; rewrite app_nil_r; reflexivity | intros x []].
Qed.

(** X15: the reports that a check returns are in descending order of
    [similarity_score], and they are, up to that order, the reports it
    inserted: the same peers with the same scores. *)
Theorem checkPlagiarism_reports (submissionId assignmentId : jsstring) (w : World) :
  let (result, w') := checkPlagiarism toLowerCase submissionId assignmentId w in
  match result with
  | CheckError _ => True
  | NothingToCompare _ reports _ => reports = []
  | Checked _ reports _ =>
      StronglySorted scoreNotBelow reports /\
      exists trace,
        events w' = events w ++ trace /\
        Permutation (map reportKey reports) (map rowKey (insertedRows trace))
  end.
Proof.
  rewrite checkPlagiarism_cases.
  destruct (checkedContent w submissionId) as [currentContent|] eqn:Ec; [|exact I].
  apply checkedContent_Some in Ec. cbv zeta.
  destruct (othersOf w assignmentId submissionId) as [|o rest] eqn:Eo; [reflexivity|].
  destruct (compareAll_effects w assignmentId submissionId currentContent (o :: rest) Ec)
    with (acc := ([] : list ref, [] : list Report))
         (w := afterEvent (afterEvent w (SelectSubmission submissionId))
                 (SelectOthers assignmentId submissionId))
    as (_ & trace & Hev & _ & _ & newReports & Hrep & Hkeys & Hfin).
  { intros o' Ho'. apply othersOf_peer. rewrite Eo. exact Ho'. }
  cbn [fst snd events]. cbn [snd app] in Hrep. rewrite Hrep. split.
  - apply FOP_sorted. apply sortBy_sorted_desc. exact Hfin.
  - exists (SelectSubmission submissionId :: SelectOthers assignmentId submissionId :: trace).
    split; [rewrite Hev; unfold afterEvent; simpl; rewrite <- !app_assoc; reflexivity|].
    simpl. rewrite <- Hkeys. apply Permutation_map. symmetry. apply sortBy_perm_any.
Qed.

Lemma segment_inText (originalText comparedText comparedSubmissionId : jsstring)
    (threshold : number) (m : MatchedSegment) :
  In m (findMatchingSegments toLowerCase originalText comparedText comparedSubmissionId
          threshold) ->
  inText originalText m.
Proof.
  intros Hm. apply findMatchingSegments_shape in Hm. destruct Hm as (s & Hs & ->).
  destruct (sentence_found _ _ Hs) as (Hocc & _ & Hlen).
  apply occursAt_bounds in Hocc. unfold inText; simpl. lia.
Qed.

(** The objects that the loop creates: they are new, they lie in the
    checked text, and the objects that were there are not touched. *)
Lemma compareAll_refs (submissionId currentContent : jsstring) (others : list Submission) :
  forall (acc : list ref * list Report) (w : World),
    let r := compareAll toLowerCase submissionId currentContent others acc w in
    (nextRef w <= nextRef (snd r))%nat /\
    (forall x, (x < nextRef w)%nat -> heap (snd r) x = heap w x) /\
    exists newRefs,
      fst (fst r) = fst acc ++ newRefs /\
      Forall (fun x => inText currentContent (heap (snd r) x)) newRefs.
Proof.
  induction others as [|o rest IH]; intros acc w.
  - simpl. split; [lia|]. split; [reflexivity|].
    exists []. rewrite app_nil_r. split; [reflexivity | constructor].
  - cbv zeta. rewrite compareAll_cons.
    destruct (truthy (sub_content o)) as [otherContent|]; [|apply IH].
    cbv zeta.
    set (vs := findMatchingSegments toLowerCase currentContent otherContent (sub_id o)
                 defaultThreshold).
    set (w1 := afterCompare w (sub_id o) vs).
    set (matches := seq (nextRef w) (length vs)).
    assert (Hn1 : nextRef w1 = (nextRef w + length vs)%nat) by reflexivity.
    assert (Hold : forall x, (x < nextRef w)%nat -> heap w1 x = heap w x).
    { intros x Hx. unfold w1, afterCompare. cbn [heap].
      destruct (Nat.leb_spec (nextRef w) x); [lia | reflexivity]. }
    assert (Hnew : forall x, In x matches -> inText currentContent (heap w1 x)).
    { intros x Hx. unfold matches in Hx. apply in_seq in Hx.
      unfold w1, afterCompare. cbn [heap].
      destruct (Nat.leb_spec (nextRef w) x); [|lia].
      destruct (Nat.ltb_spec x (nextRef w + length vs)); [|lia]. cbn [andb].
      apply (segment_inText currentContent otherContent (sub_id o) defaultThreshold).
      apply nth_In. fold vs. lia. }
    destruct (0 <? length matches)%nat.
    + match goal with
      | |- context [compareAll _ _ _ rest ?a ?w3] =>
          destruct (IH a w3) as (Hmono & Hframe & newRefs & Hrefs & Hall)
      end.
      cbn [nextRef heap afterInsert] in Hmono, Hframe.
      split; [rewrite Hn1 in Hmono; lia|].
      split; [intros x Hx; rewrite Hframe by (rewrite Hn1; lia); apply Hold; exact Hx|].
      exists (matches ++ newRefs).
      split; [rewrite Hrefs; cbn [fst]; rewrite <- app_assoc; reflexivity|].
      apply Forall_app. split; [|exact Hall].
      apply Forall_forall. intros x Hx. rewrite Hframe; [apply Hnew; exact Hx|].
      unfold matches in Hx. apply in_seq in Hx. rewrite Hn1. lia.
    + destruct (IH acc w1) as (Hmono & Hframe & newRefs & Hrefs & Hall).
      split; [rewrite Hn1 in Hmono; lia|].
      split; [intros x Hx; rewrite Hframe by (rewrite Hn1; lia); apply Hold; exact Hx|].
      exists newRefs. split; assumption.
Qed.

(** What is merged of segments that lie in a text, is at most the text. *)
Lemma merged_total_range (currentContent : jsstring) (segments : list ref) (h : Heap) :
  Forall (fun x => inText currentContent (h x)) segments ->
  0 <= totalChars (snd (mergeOverlappingSegments segments h))
                  (fst (mergeOverlappingSegments segments h))
    <= len currentContent.
Proof.
  intros Hall. pose proof (len_nonneg currentContent) as HL.
  destruct (sortBy (startsBefore h) segments) as [|first rest] eqn:E.
  - unfold mergeOverlappingSegments. rewrite E. simpl. unfold totalChars. simpl. lia.
  - destruct (merge_run segments h first rest E) as (merged & h' & -> & HI).
    destruct HI as [Hframe Hgrow Htouched Hgroups Hconcat Hgap Hsorted Hne].
    cbn [fst snd]. unfold totalChars.
    pose proof (sorted_perm h segments) as Hperm. rewrite E in Hperm.
    rewrite Forall_forall in Hall.
    assert (Hspans : Forall (fun m => 0 <= startIndex (h' m) /\
                                      startIndex (h' m) < endIndex (h' m) /\
                                      endIndex (h' m) <= len currentContent) merged).
    { apply Forall_forall. intros m Hm.
      destruct (Forall2_in_l _ _ _ m Hgroups Hm) as (g & Hg & Hhd & _ & Hcov).
      assert (Hgin : forall r, In r g -> inText currentContent (h r)).
      { intros r Hr. apply Hall. apply (Permutation_in _ (Permutation_sym Hperm)).
        rewrite <- Hconcat. apply in_concat. exists g; auto. }
      assert (Hmg : In m g) by (destruct Hhd as (tl & ->); left; reflexivity).
      destruct (Hgin m Hmg) as (Hm0 & Hm1 & Hm2).
      destruct (Hframe m) as [Hs _]. unfold startOf in Hs.
      assert (Hc : covers (h' m) (startIndex (h m))).
      { apply Hcov. exists m. split; [exact Hmg | unfold covers; lia]. }
      unfold covers in Hc. rewrite Hs in *. split; [lia|]. split; [lia|].
      destruct (Z_le_gt_dec (endIndex (h' m)) (len currentContent)) as [Hle|Hgt];
        [exact Hle|].
      exfalso.
      assert (Hc' : covers (h' m) (len currentContent)) by (unfold covers; lia).
      apply Hcov in Hc'. destruct Hc' as (r & Hr & Hrc).
      destruct (Hgin r Hr) as (_ & _ & Hr2). unfold covers in Hrc. lia. }
    assert (Hgap' : ForallOrdPairs (fun a b => endIndex (h' a) < startIndex (h' b)) merged).
    { eapply FOP_impl_in; [|exact Hgap]. intros a b _ _ Hab.
      rewrite (proj1 (Hframe b)). exact Hab. }
    pose proof (totalChars_bound h' (len currentContent) merged 0 0 Hgap' Hspans HL). lia.
Qed.

(** X14: whenever a check returns an overall similarity, it is a
    percentage between 0 and 100, whatever the submissions and however the
    matched segments overlap. *)
Theorem checkPlagiarism_overall_range (submissionId assignmentId : jsstring) (w : World) :
  let (result, w') := checkPlagiarism toLowerCase submissionId assignmentId w in
  match result with
  | CheckError _ => True
  | NothingToCompare overall _ _ | Checked overall _ _ =>
      exists q, overall = Fin q /\ (0 <= q <= 100)%Q
  end.
Proof.
  rewrite checkPlagiarism_cases.
  destruct (checkedContent w submissionId) as [currentContent|] eqn:Ec; [|exact I].
  apply checkedContent_Some in Ec. cbv zeta.
  destruct (othersOf w assignmentId submissionId) as [|o rest] eqn:Eo.
  - exists 0%Q. split; [reflexivity|]. unfold Qle; simpl; lia.
  - set (w2 := afterEvent (afterEvent w (SelectSubmission submissionId))
                 (SelectOthers assignmentId submissionId)).
    destruct (compareAll_refs submissionId currentContent (o :: rest) ([], []) w2)
      as (_ & _ & newRefs & Hrefs & Hall).
    set (r := compareAll toLowerCase submissionId currentContent (o :: rest) ([], []) w2) in *.
    cbn [fst app] in Hrefs. rewrite <- Hrefs in Hall.
    pose proof (merged_total_range currentContent (fst (fst r)) (heap (snd r)) Hall) as Ht.
    rewrite (percentOf_fin _ _ _ Ec). eexists. split; [reflexivity|].
    apply percent_rounded_range.
    rewrite Z2Pos.id; [exact Ht|].
    destruct currentContent; [congruence | unfold len; simpl; lia].
Qed.

Lemma merge_keeps (segments : list ref) (h : Heap) (r : ref) :
  startIndex (snd (mergeOverlappingSegments segments h) r) = startIndex (h r) /\
  matchedSubmissionId (snd (mergeOverlappingSegments segments h) r)
  = matchedSubmissionId (h r) /\
  endIndex (h r) <= endIndex (snd (mergeOverlappingSegments segments h) r).
Proof.
  destruct (sortBy (startsBefore h) segments) as [|first rest] eqn:E.
  - unfold mergeOverlappingSegments. rewrite E. simpl. repeat split; lia.
  - destruct (merge_run segments h first rest E) as (merged & h' & -> & HI).
    destruct HI as [Hframe Hgrow _ _ _ _ _ _]. cbn [snd].
    destruct (Hframe r) as [Hs Hi]. split; [exact Hs|]. split; [exact Hi | apply Hgrow].
Qed.

(** The reports that the loop collects hold the very objects whose values
    went into the rows. *)
Lemma compareAll_rows (submissionId currentContent : jsstring) (others : list Submission) :
  forall (acc : list ref * list Report) (w : World),
    let r := compareAll toLowerCase submissionId currentContent others acc w in
    exists trace newReports,
      events (snd r) = events w ++ trace /\
      snd (fst r) = snd acc ++ newReports /\
      Forall (fun rp => exists row,
                In row (insertedRows trace) /\
                reportKey rp = rowKey row /\
                deref (heap (snd r)) (matched_content rp) = row_matched_content row)
             newReports.
Proof.
  induction others as [|o rest IH]; intros acc w.
  - simpl. exists [], []. rewrite !app_nil_r. repeat split; constructor.
  - cbv zeta. rewrite compareAll_cons.
    destruct (truthy (sub_content o)) as [otherContent|]; [|apply IH].
    cbv zeta.
    set (vs := findMatchingSegments toLowerCase currentContent otherContent (sub_id o)
                 defaultThreshold).
    set (w1 := afterCompare w (sub_id o) vs).
    set (matches := seq (nextRef w) (length vs)).
    destruct (0 <? length matches)%nat.
    + set (row := mkReportRow submissionId (sub_id o)
                    (percentOf (heap w1) matches currentContent) (deref (heap w1) matches)).
      set (rp := mkReport (sub_id o) (percentOf (heap w1) matches currentContent) matches).
      set (acc' := (fst acc ++ matches, snd acc ++ [rp])).
      destruct (IH acc' (afterInsert w1 row)) as (trace & newReports & Hev & Hrep & Hall).
      destruct (compareAll_refs submissionId currentContent rest acc' (afterInsert w1 row))
        as (_ & Hframe & _).
      exists (Compared (sub_id o) :: Inserted row :: trace), (rp :: newReports).
      split; [rewrite Hev; simpl; rewrite <- !app_assoc; reflexivity|].
      split; [rewrite Hrep; simpl; rewrite <- app_assoc; reflexivity|].
      constructor.
      * exists row. split; [left; reflexivity|]. split; [reflexivity|].
        simpl. unfold deref. apply map_ext_in. intros x Hx. apply Hframe.
        unfold matches in Hx. apply in_seq in Hx. cbn [nextRef afterInsert w1 afterCompare].
        lia.
      * eapply Forall_impl; [|exact Hall]. intros rp' (row' & Hin & Hk & Hd).
        exists row'. split; [right; exact Hin | auto].
    + destruct (IH acc w1) as (trace & newReports & Hev & Hrep & Hall).
      exists (Compared (sub_id o) :: trace), newReports.
      split; [rewrite Hev; simpl; rewrite <- app_assoc; reflexivity|].
      split; [exact Hrep | exact Hall].
Qed.

(** X16: the segments of a returned report are the objects whose values
    were written into its row; the merge that follows the inserts may have
    written to them, so that a returned segment can differ from the stored
    one, but only so far: it has the same [startIndex] and
    [matchedSubmissionId], and an [endIndex] that is not smaller. *)
Theorem checkPlagiarism_report_segments (submissionId assignmentId : jsstring) (w : World) :
  let (result, w') := checkPlagiarism toLowerCase submissionId assignmentId w in
  match result with
  | Checked _ reports _ =>
      exists trace,
        events w' = events w ++ trace /\
        Forall (fun rp => exists row,
                  In row (insertedRows trace) /\
                  reportKey rp = rowKey row /\
                  Forall2 (fun x v =>
                             startIndex (heap w' x) = startIndex v /\
                             matchedSubmissionId (heap w' x) = matchedSubmissionId v /\
                             endIndex v <= endIndex (heap w' x))
                          (matched_content rp) (row_matched_content row))
               reports
  | _ => True
  end.
Proof.
  rewrite checkPlagiarism_cases.
  destruct (checkedContent w submissionId) as [currentContent|]; [|exact I].
  cbv zeta.
  destruct (othersOf w assignmentId submissionId) as [|o rest]; [exact I|].
  set (w2 := afterEvent (afterEvent w (SelectSubmission submissionId))
               (SelectOthers assignmentId submissionId)).
  destruct (compareAll_rows submissionId currentContent (o :: rest) ([], []) w2)
    as (trace & newReports & Hev & Hrep & Hall).
  set (r := compareAll toLowerCase submissionId currentContent (o :: rest) ([], []) w2) in *.
  cbn [snd app] in Hrep. cbn [events heap]. rewrite Hrep.
  exists (SelectSubmission submissionId :: SelectOthers assignmentId submissionId :: trace).
  split; [rewrite Hev; unfold w2, afterEvent; simpl; rewrite <- !app_assoc; reflexivity|].
  apply Forall_forall. intros rp Hrp.
  apply (Permutation_in _ (Permutation_sym (sortBy_perm_any _ newReports))) in Hrp.
  rewrite Forall_forall in Hall. destruct (Hall rp Hrp) as (row & Hin & Hk & Hd).
  exists row. split; [exact Hin|]. split; [exact Hk|].
  rewrite <- Hd. unfold deref. clear Hd.
  induction (matched_content rp) as [|x l IHl]; simpl; [constructor|].
  constructor; [apply merge_keeps | exact IHl].
Qed.

End OrchestratorFacts.

Lemma checkPlagiarism_no_others_witness :
  let s := mkSubmission (js "s1") (js "a1") (js "u1")
             (Some (js "The quick brown fox jumps over the lazy dog today in the park."))
             submitted in
  (NoDup (map sub_id (submissions quietClassroom)) /\
   In s (submissions quietClassroom) /\ sub_id s = js "s1" /\
   sub_content s
   = Some (js "The quick brown fox jumps over the lazy dog today in the park.") /\
   js "The quick brown fox jumps over the lazy dog today in the park." <> [] /\
   (forall o, In o (submissions quietClassroom) -> sub_assignment_id o = js "a1" ->
              sub_status o = submitted -> sub_id o = js "s1")) /\
  let (result, w') := checkPlagiarism asciiLower (js "s1") (js "a1") quietClassroom in
  result = NothingToCompare (Fin 0) [] noOthersMessage /\
  plagiarism_reports w' = plagiarism_reports quietClassroom /\
  submissions w' = submissions quietClassroom /\
  heap w' = heap quietClassroom /\
  events w' = events quietClassroom ++ [SelectSubmission (js "s1");
                                        SelectOthers (js "a1") (js "s1")].
Proof.
  intro s.
  assert (Hnd : NoDup (map sub_id (submissions quietClassroom))).
  { simpl. constructor; [intros [H|[]]; discriminate H|]. constructor; [intros []|constructor]. }
  assert (Hin : In s (submissions quietClassroom)) by (left; reflexivity).
  assert (Hne : js "The quick brown fox jumps over the lazy dog today in the park." <> [])
    by discriminate.
  assert (Hnone : forall o, In o (submissions quietClassroom) ->
            sub_assignment_id o = js "a1" -> sub_status o = submitted -> sub_id o = js "s1").
  { intros o [<-|[<-|[]]] _ Hst; [reflexivity | discriminate Hst]. }
  split; [repeat split; assumption|].
  exact (checkPlagiarism_no_others asciiLower (js "s1") (js "a1") quietClassroom s _
           Hnd Hin eq_refl eq_refl Hne Hnone).
Defined.

(** A sentence that matches two sentences of a peer counts twice in the
    score of the pair, which can then exceed 100; the overall similarity
    counts it once. *)
Example checkPlagiarism_echo :
  let (result, w') := checkPlagiarism asciiLower (js "s1") (js "a1") echoClassroom in
  map row_similarity_score (plagiarism_reports w') = [Fin 192.86] /\
  exists reports merged,
    result = Checked (Fin 96.43) reports merged /\ spansOf (heap w') merged = [(0, 27)].
Proof. vm_compute. split; [reflexivity|]. eexists. eexists. split; reflexivity. Qed.

(** Two matched sentences that overlap in the checked text: the row holds
    the segments as found, the returned report holds the first of them as the
    merge has widened it. *)
Example checkPlagiarism_overlap :
  let (result, w') := checkPlagiarism asciiLower (js "s1") (js "a1") overlapClassroom in
  map (fun row => map (fun m => (startIndex m, endIndex m)) (row_matched_content row))
      (plagiarism_reports w') = [[(5, 28); (19, 44)]] /\
  exists overall reports merged,
    result = Checked overall reports merged /\
    map (fun rp => spansOf (heap w') (matched_content rp)) reports = [[(5, 44); (19, 44)]].
Proof. vm_compute. split; [reflexivity|]. do 3 eexists. split; reflexivity. Qed.

(** * The views *)

(** ** Highlighting *)

Lemma substringFrom_inside (s : jsstring) (a b : Z) :
  0 <= a -> a <= b -> b <= len s ->
  substringFrom s a (Some b) = substring s a b.
Proof.
  intros Ha Hab Hb. unfold substringFrom, clamp.
  replace (Z.min (Z.max a 0) (len s)) with a by lia.
  replace (Z.min (Z.max b 0) (len s)) with b by lia.
  replace (Z.min a b) with a by lia. replace (Z.max a b) with b by lia.
  reflexivity.
Qed.

Lemma substringFrom_rest (s : jsstring) (a : Z) :
  0 <= a -> a <= len s ->
  substringFrom s a None = skipn (Z.to_nat a) s.
Proof.
  intros Ha Hb. unfold substringFrom, clamp.
  replace (Z.min (Z.max a 0) (len s)) with a by lia.
  replace (Z.min a (len s)) with a by lia. replace (Z.max a (len s)) with (len s) by lia.
  unfold substring. apply firstn_all2. rewrite length_skipn. unfold len. lia.
Qed.

Lemma skipn_substring (s : jsstring) (a b : Z) :
  0 <= a -> a <= b ->
  skipn (Z.to_nat a) s = substring s a b ++ skipn (Z.to_nat b) s.
Proof.
  intros Ha Hab. unfold substring.
  replace (Z.to_nat b) with (Z.to_nat (b - a) + Z.to_nat a)%nat by lia.
  rewrite <- skipn_skipn. symmetry. apply firstn_skipn.
Qed.

Lemma laidOut_le (lo L : Z) (segments : list (Z * Z)) :
  laidOut lo L segments -> lo <= L.
Proof.
  revert lo; induction segments as [|seg rest IH]; intros lo; simpl; [tauto|].
  intros (H1 & H2 & H3). specialize (IH _ H3). lia.
Qed.

Lemma highlight_fold (content : jsstring) (segments : list (Z * Z)) :
  forall (highlighted : jsstring) (lastIndex : Z),
    0 <= lastIndex ->
    laidOut lastIndex (len content) segments ->
    exists pieces rest,
      fst (fold_left (highlightStep content) segments (highlighted, lastIndex))
      ++ substringFrom content
           (snd (fold_left (highlightStep content) segments (highlighted, lastIndex))) None
      = highlighted ++ withMarks pieces rest /\
      skipn (Z.to_nat lastIndex) content = withoutMarks pieces rest /\
      map snd pieces = map (fun seg => substring content (fst seg) (snd seg)) segments.
Proof.
  induction segments as [|[s e] segments IH]; intros highlighted lastIndex H0 Hl.
  - simpl in *. exists [], (skipn (Z.to_nat lastIndex) content).
    rewrite substringFrom_rest by assumption. repeat split.
  - simpl in Hl. destruct Hl as (H1 & H2 & H3).
    pose proof (laidOut_le _ _ _ H3) as He.
    cbn [fold_left]. unfold highlightStep at 2 4. cbn [fst snd].
    rewrite !substringFrom_inside by lia.
    match goal with
    | |- context [fold_left _ segments (?h, e)] =>
        destruct (IH h e) as (pieces & rest & Eh & Ec & Em); [lia | exact H3 |]
    end.
    exists ((substring content lastIndex s, substring content s e) :: pieces), rest.
    split; [|split].
    + etransitivity; [exact Eh|].
      unfold withMarks. simpl. rewrite <- !app_assoc. reflexivity.
    + unfold withoutMarks in *. simpl.
      rewrite (skipn_substring content lastIndex s) by lia.
      rewrite (skipn_substring content s e) by lia.
      rewrite Ec. rewrite <- !app_assoc. reflexivity.
    + simpl. f_equal. exact Em.
Qed.

(** X17: when the stored segments, taken in the order of their
    [startIndex], lie inside the text and none overlaps the next, the
    highlighted text is the submission with each segment put between
    [<mark ...>] and [</mark>]: taking the marks away gives back the
    submission, character for character, and what is marked are the
    segments. *)
Theorem highlightMatches_marks (submissionContent : jsstring) (reportData : list ReportJson) :
  laidOut 0 (len submissionContent)
          (sortBy (fun a b => fst a - fst b <? 0) (collectSegments reportData)) ->
  exists pieces rest,
    highlightMatches submissionContent reportData = withMarks pieces rest /\
    submissionContent = withoutMarks pieces rest /\
    map snd pieces
    = map (fun seg => substring submissionContent (fst seg) (snd seg))
          (sortBy (fun a b => fst a - fst b <? 0) (collectSegments reportData)).
Proof.
  intros Hl. unfold highlightMatches. cbv zeta.
  set (segments := sortBy (fun a b => fst a - fst b <? 0) (collectSegments reportData)) in *.
  destruct (highlight_fold submissionContent segments [] 0 (Z.le_refl 0) Hl)
    as (pieces & rest & Eh & Ec & Em).
  exists pieces, rest.
  match goal with
  | |- context [fold_left ?f ?l ?i] => set (run := fold_left f l i)
  end.
  change (fst run ++ substringFrom submissionContent (snd run) None
          = [] ++ withMarks pieces rest) in Eh.
  clearbody run. destruct run as [highlighted lastIndex].
  split; [exact Eh|]. split; [exact Ec | exact Em].
Qed.

Lemma highlightMatches_marks_witness :
  laidOut 0 (len (js "Hello there, good people."))
          (sortBy (fun a b => fst a - fst b <? 0) (collectSegments storedReports)) /\
  highlightMatches (js "Hello there, good people.") storedReports
  = withMarks [(js "", js "Hello"); (js " there,", js " good peo")] (js "ple.") /\
  exists pieces rest,
    highlightMatches (js "Hello there, good people.") storedReports = withMarks pieces rest /\
    js "Hello there, good people." = withoutMarks pieces rest /\
    map snd pieces
    = map (fun seg => substring (js "Hello there, good people.") (fst seg) (snd seg))
          (sortBy (fun a b => fst a - fst b <? 0) (collectSegments storedReports)).
Proof.
  assert (H : laidOut 0 (len (js "Hello there, good people."))
                (sortBy (fun a b => fst a - fst b <? 0) (collectSegments storedReports))).
  { vm_compute. repeat split; discriminate. }
  split; [exact H|]. split; [reflexivity|].
  exact (highlightMatches_marks (js "Hello there, good people.") storedReports H).
Defined.

(** Segments that overlap: the stretch they share comes twice. *)
Example highlightMatches_overlap :
  highlightMatches (js "abcdef")
    [mkReportJson (Fin 50) (Some [mkMatchJson (Some 0) (Some 4); mkMatchJson (Some 2) (Some 6)])]
  = js "" ++ markOpen ++ js "abcd" ++ markClose
    ++ js "cd" ++ markOpen ++ js "cdef" ++ markClose ++ js "".
Proof. reflexivity. Qed.

(** ** The statistics of the student dashboard *)

Lemma filter_split_length {A : Type} (f g : A -> bool) (l : list A) :
  (forall x, In x l -> g x = negb (f x)) ->
  (length (filter f l) + length (filter g l) = length l)%nat.
Proof.
  induction l as [|x l IH]; intros H; simpl; [reflexivity|].
  rewrite (H x (or_introl eq_refl)).
  assert (IH' := IH (fun y Hy => H y (or_intror Hy))).
  destruct (f x); simpl; lia.
Qed.

Lemma filter_sub_length {A : Type} (f g : A -> bool) (l : list A) :
  (forall x, In x l -> f x = true -> g x = true) ->
  (length (filter f l) <= length (filter g l))%nat.
Proof.
  induction l as [|x l IH]; intros H; simpl; [lia|].
  assert (IH' := IH (fun y Hy => H y (or_intror Hy))).
  destruct (f x) eqn:E.
  - rewrite (H x (or_introl eq_refl) E). simpl. lia.
  - destruct (g x); simpl; lia.
Qed.

(** X18: the statistics of the dashboard add up: every assignment is
    counted either as completed or as pending, never as both and never as
    neither, and the graded ones are among the completed ones. *)
Theorem getAssignmentStats_partition (assignments : list Assignment)
    (submissions : list Submission) :
  let stats := getAssignmentStats assignments submissions in
  stat_total stats = length assignments /\
  (stat_completed stats + stat_pending stats = stat_total stats)%nat /\
  (stat_graded stats <= stat_completed stats)%nat.
Proof.
  unfold getAssignmentStats. cbn [stat_total stat_completed stat_pending stat_graded].
  split; [reflexivity|]. split.
  - apply filter_split_length. intros a _. cbv zeta.
    destruct (getSubmissionForAssignment submissions (asg_id a)) as [s|]; [|reflexivity].
    destruct (sub_status s); reflexivity.
  - apply filter_sub_length. intros a _. cbv zeta.
    destruct (getSubmissionForAssignment submissions (asg_id a)) as [s|]; [|discriminate].
    destruct (sub_status s); simpl; auto.
Qed.
